(** * The job scheduler of internal/server/singleprocess/state/job.go

    A shallow embedding of the job state machine: the persisted job records
    (bolt bucket [jobs]), the in-memory index (memdb table [jobs] holding
    pointers to [jobIndex] objects), the state timers and the lifecycle verbs
    [JobCreate], [JobList], [JobById], [JobAssignForRunner], [JobAck],
    [JobComplete], [JobCancel], [JobHeartbeat] and [JobExpire], the startup
    scan [jobIndexInit] and the admission check [JobIsAssignable].

    Conventions of the embedding:
    - the clock is a field of the scheduler state; [time.Now()] reads it;
      times and protobuf timestamps are integers (nanoseconds);
    - a [*jobIndex] is a position in [heap]; the code mutates these objects in
      place, so a write through a pointer survives an aborted transaction;
    - a [*time.Timer] is a position in [timers];
    - serialization and the storage engine do not fail: [dbPut] always
      succeeds and [dbGet] fails only on a missing key; job ids are taken
      non-empty, so the empty-key errors of bolt and memdb do not arise;
    - watch sets and contexts are not modelled: where [JobAssignForRunner]
      would wait and retry, the embedding returns [Ok None]. *)

From Stdlib Require Import ZArith String Ascii List Lia.
From stdpp Require Import base option list gmap strings sorting.

Local Open Scope string_scope.

(** ** gRPC status codes and errors *)

Module codes.
  (** The codes of google.golang.org/grpc/codes that the scheduler or its
      specification mention. *)
Inductive Code :=
  | OK | Canceled | Unknown | InvalidArgument | NotFound
  | FailedPrecondition | Internal.

#[global] Instance Code_eq_dec : EqDecision Code.
Proof. solve_decision. Defined.
End codes.

Module status.
  (** [*status.Status]: a code and a message. *)
Record Status := mkStatus { Code : codes.Code; Message : string }.

#[global] Instance Status_eq_dec : EqDecision Status.
Proof. solve_decision. Defined.

  (** A Go [error] value: either built by [status.Errorf] (it carries a
      code) or by [fmt.Errorf] (it carries only text). *)
Inductive error :=
  | StatusError (st : Status)
  | PlainError (msg : string).

Definition Errorf (c : codes.Code) (msg : string) : error :=
    StatusError (mkStatus c msg).

  (** [status.FromError]: an error that carries no status is reported with
      code [Unknown] and its text as message. *)
Definition FromError (e : error) : Status :=
    match e with
    | StatusError st => st
    | PlainError msg => mkStatus codes.Unknown msg
    end.

  (** [status.Code] on a possibly nil error. *)
Definition CodeOf (e : option error) : codes.Code :=
    match e with
    | None => codes.OK
    | Some e => Code (FromError e)
    end.
End status.

Abbreviation error := status.error.

(** ** Protobuf messages (package pb) *)

Module pb.
  (** The job states of §3; [Job_UNKNOWN] is the zero value of the enum. *)
Inductive Job_State :=
  | Job_UNKNOWN | Job_QUEUED | Job_WAITING | Job_RUNNING | Job_ERROR | Job_SUCCESS.

#[global] Instance Job_State_eq_dec : EqDecision Job_State.
Proof. solve_decision. Defined.

  (** [Job_State.String()]. *)
Definition Job_State_String (st : Job_State) : string :=
    match st with
    | Job_UNKNOWN => "UNKNOWN"
    | Job_QUEUED => "QUEUED"
    | Job_WAITING => "WAITING"
    | Job_RUNNING => "RUNNING"
    | Job_ERROR => "ERROR"
    | Job_SUCCESS => "SUCCESS"
    end.

  (** The integer value of a state, the key of the memdb state indexes.
      Only the order of index scans depends on it. *)
Definition Job_State_value (st : Job_State) : Z :=
    match st with
    | Job_UNKNOWN => 0
    | Job_QUEUED => 1
    | Job_WAITING => 2
    | Job_RUNNING => 3
    | Job_ERROR => 4
    | Job_SUCCESS => 5
    end%Z.

Record Ref_Application := mkApplication { Application : string; Project : string }.
Record Ref_Workspace := mkWorkspace { Workspace : string }.

  (** The [Target] oneof of [Ref_Runner]; an unset oneof is [None] in
      [Ref_Runner.Target]. *)
Inductive Ref_Runner_Target :=
  | Ref_Runner_Any
  | Ref_Runner_Id (id : string).

Record Ref_Runner := mkRunnerRef { Target : option Ref_Runner_Target }.

  (** An operation and a result are opaque to the scheduler: a variant tag
      and a serialized payload. *)
Definition Operation := nat.
Definition Job_Result := string.

Module Job.
Record t := mk {
      Id : string;
      Application : option Ref_Application;
      Workspace : option Ref_Workspace;
      TargetRunner : option Ref_Runner;
      Operation : option pb.Operation;
      State : Job_State;
      Result : option Job_Result;
      Error : option status.Status;
      QueueTime : option Z;
      AssignTime : option Z;
      AckTime : option Z;
      CompleteTime : option Z;
      CancelTime : option Z;
      ExpireTime : option Z
    }.

    (** The zero value [pb.Job{}]. *)
Definition zero : t :=
      mk "" None None None None Job_UNKNOWN None None None None None None None None.

Definition set_State (v : Job_State) (j : t) : t :=
      mk (Id j) (Application j) (Workspace j) (TargetRunner j) (Operation j)
         v (Result j) (Error j) (QueueTime j) (AssignTime j) (AckTime j)
         (CompleteTime j) (CancelTime j) (ExpireTime j).
Definition set_Result (v : option Job_Result) (j : t) : t :=
      mk (Id j) (Application j) (Workspace j) (TargetRunner j) (Operation j)
         (State j) v (Error j) (QueueTime j) (AssignTime j) (AckTime j)
         (CompleteTime j) (CancelTime j) (ExpireTime j).
Definition set_Error (v : option status.Status) (j : t) : t :=
      mk (Id j) (Application j) (Workspace j) (TargetRunner j) (Operation j)
         (State j) (Result j) v (QueueTime j) (AssignTime j) (AckTime j)
         (CompleteTime j) (CancelTime j) (ExpireTime j).
Definition set_QueueTime (v : option Z) (j : t) : t :=
      mk (Id j) (Application j) (Workspace j) (TargetRunner j) (Operation j)
         (State j) (Result j) (Error j) v (AssignTime j) (AckTime j)
         (CompleteTime j) (CancelTime j) (ExpireTime j).
Definition set_AssignTime (v : option Z) (j : t) : t :=
      mk (Id j) (Application j) (Workspace j) (TargetRunner j) (Operation j)
         (State j) (Result j) (Error j) (QueueTime j) v (AckTime j)
         (CompleteTime j) (CancelTime j) (ExpireTime j).
Definition set_AckTime (v : option Z) (j : t) : t :=
      mk (Id j) (Application j) (Workspace j) (TargetRunner j) (Operation j)
         (State j) (Result j) (Error j) (QueueTime j) (AssignTime j) v
         (CompleteTime j) (CancelTime j) (ExpireTime j).
Definition set_CompleteTime (v : option Z) (j : t) : t :=
      mk (Id j) (Application j) (Workspace j) (TargetRunner j) (Operation j)
         (State j) (Result j) (Error j) (QueueTime j) (AssignTime j) (AckTime j)
         v (CancelTime j) (ExpireTime j).
Definition set_CancelTime (v : option Z) (j : t) : t :=
      mk (Id j) (Application j) (Workspace j) (TargetRunner j) (Operation j)
         (State j) (Result j) (Error j) (QueueTime j) (AssignTime j) (AckTime j)
         (CompleteTime j) v (ExpireTime j).
End Job.

Module Runner.
Record t := mk { Id : string; ByIdOnly : bool }.
End Runner.
End pb.

(** ** The in-memory index record *)

Module jobIndex.
Record t := mk {
    Id : string;
    OpType : option pb.Operation;
    Application : option pb.Ref_Application;
    Workspace : option pb.Ref_Workspace;
    QueueTime : Z;
    TargetAny : bool;
    TargetRunnerId : string;
    State : pb.Job_State;
    StateTimer : option nat;
    OutputBuffer : option nat
  }.

Definition set_State (v : pb.Job_State) (j : t) : t :=
    mk (Id j) (OpType j) (Application j) (Workspace j) (QueueTime j)
       (TargetAny j) (TargetRunnerId j) v (StateTimer j) (OutputBuffer j).
Definition set_StateTimer (v : option nat) (j : t) : t :=
    mk (Id j) (OpType j) (Application j) (Workspace j) (QueueTime j)
       (TargetAny j) (TargetRunnerId j) (State j) v (OutputBuffer j).
Definition set_OutputBuffer (v : option nat) (j : t) : t :=
    mk (Id j) (OpType j) (Application j) (Workspace j) (QueueTime j)
       (TargetAny j) (TargetRunnerId j) (State j) (StateTimer j) v.
Definition set_QueueTime (v : Z) (j : t) : t :=
    mk (Id j) (OpType j) (Application j) (Workspace j) v
       (TargetAny j) (TargetRunnerId j) (State j) (StateTimer j) (OutputBuffer j).
Definition set_TargetAny (v : bool) (j : t) : t :=
    mk (Id j) (OpType j) (Application j) (Workspace j) (QueueTime j)
       v (TargetRunnerId j) (State j) (StateTimer j) (OutputBuffer j).
Definition set_TargetRunnerId (v : string) (j : t) : t :=
    mk (Id j) (OpType j) (Application j) (Workspace j) (QueueTime j)
       (TargetAny j) v (State j) (StateTimer j) (OutputBuffer j).
End jobIndex.

(** The exported [Job]: the persisted record with the index's extras. *)
Module Job.
Record t := mk {
    Job : pb.Job.t;
    OutputBuffer : option nat;
    Blocked : bool
  }.
End Job.

(** [(idx *jobIndex) Job(jobpb)]. *)
Definition jobIndex_Job (idx : jobIndex.t) (jobpb : pb.Job.t) : Job.t :=
  Job.mk jobpb (jobIndex.OutputBuffer idx) false.

(** ** Timers *)

(** What a timer runs when it fires: the three closures of the source. *)
Inductive callback :=
| cb_JobAck (id : string) (ack : bool)
| cb_JobCancel (id : string) (force : bool)
| cb_JobExpire (id : string).

Record Timer := mkTimer { fn : callback; deadline : Z; active : bool }.

Definition minute : Z := 60 * 1000000000.
Definition jobWaitingTimeout : Z := 2 * minute.
Definition jobHeartbeatTimeout : Z := 2 * minute.

(** ** The scheduler state *)

(** The scope of a job: project, application and workspace names (the
    protobuf getters give the empty string for a nil reference). *)
Definition Scope : Type := string * string * string.

(** The in-memory database: the indexes of table [jobs] that the verbs
    read, and the scope tracker's table (scope to assigned job id). An index
    is a map from keys to [*jobIndex]: the primary index [jobs] from job ids,
    [queue_time] (index "queue-time") from [(State, QueueTime)] followed by
    the job id, which memdb appends to the keys of an index that is not
    unique, and [target_id] (index "target-id", declared [Unique]) from
    [(State, lowercase TargetRunnerId, QueueTime)]. A key is the tuple of its
    components; memdb's byte encodings keep their order. Index "state" is
    read only to obtain a watch channel and is left out. All are written
    only inside write transactions. *)
Record MemDB := mkMemDB {
  jobs : gmap string nat;
  assigned : gmap Scope string;
  queue_time : gmap (Z * Z * string) nat;
  target_id : gmap (Z * string * Z) nat
}.

(** [State]: the in-memory database, the bolt bucket [jobs], the Go heap
    of index objects, the runtime's timers, the number of log buffers
    handed out, and the clock. *)
Record State := mkState {
  inmem : MemDB;
  db : gmap string pb.Job.t;
  heap : list jobIndex.t;
  timers : list Timer;
  buffers : nat;
  now : Z
}.

Definition set_inmem (v : MemDB) (s : State) : State :=
  mkState v (db s) (heap s) (timers s) (buffers s) (now s).
Definition set_db (v : gmap string pb.Job.t) (s : State) : State :=
  mkState (inmem s) v (heap s) (timers s) (buffers s) (now s).
Definition set_heap (v : list jobIndex.t) (s : State) : State :=
  mkState (inmem s) (db s) v (timers s) (buffers s) (now s).
Definition set_timers (v : list Timer) (s : State) : State :=
  mkState (inmem s) (db s) (heap s) v (buffers s) (now s).
Definition set_buffers (v : nat) (s : State) : State :=
  mkState (inmem s) (db s) (heap s) (timers s) v (now s).
Definition set_jobs (v : gmap string nat) (s : State) : State :=
  set_inmem (mkMemDB v (assigned (inmem s)) (queue_time (inmem s))
               (target_id (inmem s))) s.
Definition set_assigned (v : gmap Scope string) (s : State) : State :=
  set_inmem (mkMemDB (jobs (inmem s)) v (queue_time (inmem s))
               (target_id (inmem s))) s.
Definition set_queue_time (v : gmap (Z * Z * string) nat) (s : State) : State :=
  set_inmem (mkMemDB (jobs (inmem s)) (assigned (inmem s)) v
               (target_id (inmem s))) s.
Definition set_target_id (v : gmap (Z * string * Z) nat) (s : State) : State :=
  set_inmem (mkMemDB (jobs (inmem s)) (assigned (inmem s))
               (queue_time (inmem s)) v) s.

(** ** The monad of the verbs: state passing with Go's error return *)

Inductive result (A : Type) :=
| Ok (a : A)
| Err (e : error).
Arguments Ok {A} a.
Arguments Err {A} e.

Definition M (A : Type) : Type := State -> result A * State.

Definition ret {A} (a : A) : M A := fun s => (Ok a, s).
Definition fail {A} (e : error) : M A := fun s => (Err e, s).
Definition bind {A B} (m : M A) (k : A -> M B) : M B :=
  fun s =>
    match m s with
    | (Ok a, s') => k a s'
    | (Err e, s') => (Err e, s')
    end.
Definition gets {A} (f : State -> A) : M A := fun s => (Ok (f s), s).
Definition modify (f : State -> State) : M unit := fun s => (Ok tt, f s).

Notation "'let*' x ':=' m 'in' k" := (bind m (fun x => k))
  (at level 10, x name, m at level 100, k at level 200, only parsing).
Notation "'do*' m 'in' k" := (bind m (fun _ => k))
  (at level 10, m at level 100, k at level 200, only parsing).

(** ** Runtime primitives: clock, timers, log buffers, heap objects *)

(** [time.Now()]. *)
Definition time_Now : M Z := gets now.

(** [t.Sub(u)]: the difference as a [time.Duration], a signed 64-bit count
    of nanoseconds; out of its range the result is the largest or the
    smallest duration. *)
Definition maxDuration : Z := 2 ^ 63 - 1.
Definition minDuration : Z := - 2 ^ 63.

Definition time_Sub (t u : Z) : Z :=
  let d := (t - u)%Z in
  if (maxDuration <? d)%Z then maxDuration
  else if (d <? minDuration)%Z then minDuration
  else d.

(** [time.AfterFunc(d, f)]: a new armed timer; its handle is returned. *)
Definition time_AfterFunc (d : Z) (f : callback) : M nat :=
  fun s => (Ok (length (timers s)),
            set_timers (timers s ++ [mkTimer f (now s + d) true]) s).

(** [Stop()] on a timer. *)
Definition timer_Stop (h : nat) : M unit :=
  modify (fun s =>
    set_timers (alter (fun t => mkTimer (fn t) (deadline t) false) h (timers s)) s).

(** [Reset(d)] on a timer. *)
Definition timer_Reset (h : nat) (d : Z) : M unit :=
  modify (fun s =>
    set_timers (alter (fun t => mkTimer (fn t) (now s + d) true) h (timers s)) s).

(** [logbuffer.New()]. *)
Definition logbuffer_New : M nat :=
  fun s => (Ok (buffers s), set_buffers (S (buffers s)) s).

(** Reading through a [*jobIndex]. Pointers come from the index, so the
    failing branch is never taken from a verb. *)
Definition load (p : nat) : M jobIndex.t :=
  fun s =>
    match heap s !! p with
    | Some job => (Ok job, s)
    | None => (Err (status.PlainError "invalid memory address or nil pointer dereference"), s)
    end.

(** Writing a field through a [*jobIndex]: in place, outside any
    transaction. *)
Definition update (p : nat) (f : jobIndex.t -> jobIndex.t) : M unit :=
  modify (fun s => set_heap (alter f p (heap s)) s).

(** [(idx *jobIndex) End()]. *)
Definition End_ (p : nat) : M unit :=
  let* idx := load p in
  match jobIndex.StateTimer idx with
  | Some h =>
      do* timer_Stop h in
      update p (jobIndex.set_StateTimer None)
  | None => ret tt
  end.

(** ** memdb: the table [jobs] *)

(** [txn.First(jobTableName, jobIdIndexName, id)]: the pointer stored
    under [id], or nil. *)
Definition First (id : string) : M (option nat) :=
  gets (fun s =>
    match jobs (inmem s) !! id with
    | Some p => match heap s !! p with Some _ => Some p | None => None end
    | None => None
    end).

Definition lower_ascii (c : ascii) : ascii :=
  let n := nat_of_ascii c in
  if (65 <=? n)%nat && (n <=? 90)%nat then ascii_of_nat (n + 32) else c.

(** [strings.ToLower] on ASCII text. *)
Fixpoint ToLower (s : string) : string :=
  match s with
  | EmptyString => EmptyString
  | String c r => String (lower_ascii c) (ToLower r)
  end.

(** The key of an object in index "queue-time": [IntFieldIndex] on
    [State], then [IndexTime] on [QueueTime], then the primary key.
    Modelled from the spec: [IndexTime] is declared outside job.go; §4.2
    gives [(State, QueueTime asc)], so times are ordered as integers. *)
Definition queueTime_key (job : jobIndex.t) : option (Z * Z * string) :=
  Some (pb.Job_State_value (jobIndex.State job), jobIndex.QueueTime job,
        jobIndex.Id job).

(** The key of an object in index "target-id": [State], then
    [StringFieldIndex] on [TargetRunnerId] with [Lowercase], which has no
    value for the empty string, then [QueueTime]. The index is [Unique], so
    nothing is appended. *)
Definition targetId_key (job : jobIndex.t) : option (Z * string * Z) :=
  if decide (jobIndex.TargetRunnerId job = "") then None
  else Some (pb.Job_State_value (jobIndex.State job),
             ToLower (jobIndex.TargetRunnerId job), jobIndex.QueueTime job).

(** The object that [txn.Insert] finds under the primary key: memdb reads
    it through its pointer, so with the fields it has now. *)
Definition existing (jobs : gmap string nat) (heap : list jobIndex.t) (id : string)
  : option jobIndex.t :=
  jobs !! id ≫= (fun q => heap !! q).

(** What [txn.Insert] does to one secondary index. When an object exists
    under the primary key, memdb computes the key of that object and deletes
    it unless it equals the new key; then it writes the new key, over
    whatever the key held. An object that the code has modified in place
    before the call is its own existing object: the key of its earlier
    fields is not deleted, and stays in the index. *)
Definition index_Insert {K} `{Countable K} (key : jobIndex.t -> option K)
    (old : option jobIndex.t) (obj : jobIndex.t) (p : nat) (idx : gmap K nat)
  : gmap K nat :=
  let idx :=
    match old ≫= key with
    | Some k => if decide (key obj = Some k) then idx else delete k idx
    | None => idx
    end in
  match key obj with
  | Some k => <[k := p]> idx
  | None => idx
  end.

(** [txn.Insert(jobTableName, job)] of the object at [p] with fields [job]:
    the primary index maps its id to the pointer, and the secondary indexes
    are written as above. *)
Definition table_Insert (p : nat) (job : jobIndex.t) (s : State) : State :=
  let old := existing (jobs (inmem s)) (heap s) (jobIndex.Id job) in
  set_target_id (index_Insert targetId_key old job p (target_id (inmem s)))
    (set_queue_time (index_Insert queueTime_key old job p (queue_time (inmem s)))
       (set_jobs (<[jobIndex.Id job := p]> (jobs (inmem s))) s)).

(** [txn.Insert(jobTableName, job)] for an object that is already on the
    heap. *)
Definition txn_Insert (p : nat) : M unit :=
  let* job := load p in
  modify (table_Insert p job).

(** A write transaction on the in-memory database: [defer txn.Abort()]
    drops the table writes unless [txn.Commit()] was reached, which the
    verbs do exactly on their successful return. Writes made through
    pointers are not table writes and stay. *)
Definition Txn_write {A} (body : M A) : M A :=
  fun s =>
    match body s with
    | (Ok a, s') => (Ok a, s')
    | (Err e, s') => (Err e, set_inmem (inmem s) s')
    end.

(** [s.db.Update(fn)]: bolt rolls the bucket back when [fn] fails. *)
Definition db_Update {A} (body : M A) : M A :=
  fun s =>
    match body s with
    | (Ok a, s') => (Ok a, s')
    | (Err e, s') => (Err e, set_db (db s) s')
    end.

(** ** The persistent store adapter *)

(** Modelled from the spec: [dbGet] is declared outside job.go; §4.1 gives
    [Get(id) → Job | NotFound], so a missing key is a [NotFound] status and
    the destination message is left as it was. *)
Definition dbGet (id : string) (msg : pb.Job.t) : M pb.Job.t :=
  fun s =>
    match db s !! id with
    | Some v => (Ok v, s)
    | None => (Err (status.Errorf codes.NotFound ("record not found for ID: " ++ id)), s)
    end.

(** Modelled from the spec: [dbPut] is declared outside job.go; §6 gives
    [Put(key, bytes)] with the job id as key. *)
Definition dbPut (id : string) (msg : pb.Job.t) : M unit :=
  modify (fun s => set_db (<[id := msg]> (db s)) s).

(** [jobById]: [return &result, dbGet(b, []byte(id), &result)], so the
    caller receives a non-nil job next to the error. *)
Definition jobById (id : string) (s : State) : pb.Job.t * option error :=
  match dbGet id pb.Job.zero s with
  | (Ok v, _) => (v, None)
  | (Err e, _) => (pb.Job.zero, Some e)
  end.

(** [jobReadAndUpdate]: read, let [f] modify, write back, all in one bolt
    update. The source returns [result, s.db.Update(...)]; the call runs
    before the variable is read, so the returned job is the modified one
    (the callers dereference it on success). *)
Definition jobReadAndUpdate (id : string) (f : pb.Job.t -> M pb.Job.t) : M pb.Job.t :=
  db_Update (fun s =>
    match jobById id s with
    | (_, Some e) => (Err e, s)
    | (result, None) =>
        (let* result := f result in
         do* dbPut id result in
         ret result) s
    end).

(** ** The blocked-scope tracker *)

Definition scope_of (idx : jobIndex.t) : Scope :=
  (match jobIndex.Application idx with
   | Some a => (pb.Project a, pb.Application a)
   | None => ("", "")
   end,
   match jobIndex.Workspace idx with
   | Some w => pb.Workspace w
   | None => ""
   end).

(** Modelled from the spec: [jobAssignedSet] lives in job_assigned.go; §4.3:
    a mapping (application × workspace) → assigned job id, set or cleared
    inside the index write transaction. *)
Definition jobAssignedSet (idx : jobIndex.t) (a : bool) : M unit :=
  modify (fun s =>
    set_assigned
      (if a then <[scope_of idx := jobIndex.Id idx]> (assigned (inmem s))
       else delete (scope_of idx) (assigned (inmem s))) s).

(** Modelled from the spec: [jobIsBlocked] lives in job_assigned.go; §4.3:
    true iff the scope currently maps to a job id other than this one. *)
Definition blocked_in (tracker : gmap Scope string) (idx : jobIndex.t) : bool :=
  match tracker !! scope_of idx with
  | Some id' => bool_decide (id' ≠ jobIndex.Id idx)
  | None => false
  end.

Definition jobIsBlocked (idx : jobIndex.t) : M bool :=
  gets (fun s => blocked_in (assigned (inmem s)) idx).

(** ** Creation *)

(** [jobIndexSet]: builds the index record of a persisted job, arms its
    timers and inserts it. The record enters the heap when it is inserted;
    an early return leaves no trace. *)
Definition jobIndexSet (id : string) (jobpb : pb.Job.t) : M nat :=
  let rec := jobIndex.mk (pb.Job.Id jobpb) (pb.Job.Operation jobpb)
               (pb.Job.Application jobpb) (pb.Job.Workspace jobpb)
               0%Z false "" (pb.Job.State jobpb) None None in
  (* Target *)
  match pb.Job.TargetRunner jobpb with
  | None => fail (status.PlainError "job target runner must be set")
  | Some tr =>
  let* rec :=
    match pb.Target tr with
    | Some pb.Ref_Runner_Any => ret (jobIndex.set_TargetAny true rec)
    | Some (pb.Ref_Runner_Id v) => ret (jobIndex.set_TargetRunnerId v rec)
    | None => fail (status.PlainError "unknown runner target value: <nil>")
    end in
  (* Timestamps *)
  let* rec :=
    match pb.Job.QueueTime jobpb with
    | Some t => ret (jobIndex.set_QueueTime t rec)
    | None => fail (status.PlainError "timestamp: nil Timestamp")
    end in
  (* a waiting job gets a nacking timer *)
  let* rec :=
    if decide (jobIndex.State rec = pb.Job_WAITING) then
      let* h := time_AfterFunc jobWaitingTimeout (cb_JobAck (jobIndex.Id rec) false) in
      ret (jobIndex.set_StateTimer (Some h) rec)
    else ret rec in
  (* a running job gets a heartbeat timer *)
  let* rec :=
    if decide (jobIndex.State rec = pb.Job_RUNNING) then
      let* h := time_AfterFunc jobHeartbeatTimeout (cb_JobCancel (jobIndex.Id rec) true) in
      ret (jobIndex.set_StateTimer (Some h) rec)
    else ret rec in
  (* expiry *)
  do* match pb.Job.ExpireTime jobpb with
      | Some t =>
          let* now_ := time_Now in
          let dur := time_Sub t now_ in
          let dur := if (dur <? 0)%Z then 1%Z else dur in
          let* _ := time_AfterFunc dur (cb_JobExpire (pb.Job.Id jobpb)) in
          ret tt
      | None => ret tt
      end in
  (* Insert the index *)
  fun s =>
    let p := length (heap s) in
    (Ok p, set_heap (heap s ++ [rec]) (table_Insert p rec s))
  end.

(** [jobCreate]. *)
Definition jobCreate (jobpb : pb.Job.t) : M unit :=
  let jobpb := pb.Job.set_State pb.Job_QUEUED jobpb in
  let* t := time_Now in
  let jobpb := pb.Job.set_QueueTime (Some t) jobpb in
  let id := pb.Job.Id jobpb in
  do* dbPut id jobpb in
  let* _ := jobIndexSet id jobpb in
  ret tt.

(** [JobCreate] queues the given job. *)
Definition JobCreate (jobpb : pb.Job.t) : M unit :=
  Txn_write (db_Update (jobCreate jobpb)).

(** ** Index scans *)

(** memdb keeps the entries of an index ordered by their keys, and an
    iterator yields the objects the entries point to. An entry carries the
    key its object had when it was inserted; the object is read through the
    pointer, with the fields it has now. *)

(** The objects of the primary index: pointer and object. *)
Definition records (s : State) : list (nat * jobIndex.t) :=
  omap (fun '(_, p) => (fun idx => (p, idx)) <$> heap s !! p)
       (map_to_list (jobs (inmem s))).

(** The objects behind a list of index entries. *)
Definition objects {K} (s : State) (entries : list (K * nat)) : list (nat * jobIndex.t) :=
  omap (fun e => (fun idx => (e.2, idx)) <$> heap s !! e.2) entries.

Definition lex (c1 c2 : comparison) : comparison :=
  match c1 with Eq => c2 | _ => c1 end.

Definition id_key (r : nat * jobIndex.t) : string := jobIndex.Id r.2.

(** The order of the keys [(State, QueueTime)] and
    [(State, lowercase TargetRunnerId, QueueTime)]. *)
Definition queueTime_compare (a b : Z * Z) : comparison :=
  lex (a.1 ?= b.1)%Z (a.2 ?= b.2)%Z.
Definition targetId_compare (a b : Z * string * Z) : comparison :=
  lex (a.1.1 ?= b.1.1)%Z (lex (String.compare a.1.2 b.1.2) (a.2 ?= b.2)%Z).

Definition not_Gt (c : comparison) : bool :=
  match c with Gt => false | _ => true end.

Definition id_le (a b : nat * jobIndex.t) : Prop :=
  not_Gt (String.compare (id_key a) (id_key b)).

(** The order of the entries of index "queue-time": by [(State,
    QueueTime)], then by the appended job id. *)
Definition queueTime_le (a b : Z * Z * string * nat) : Prop :=
  not_Gt (lex (queueTime_compare a.1.1 b.1.1) (String.compare a.1.2 b.1.2)).

(** The order of the entries of index "target-id". *)
Definition targetId_le (a b : Z * string * Z * nat) : Prop :=
  not_Gt (targetId_compare a.1 b.1).

#[global] Instance id_le_dec : RelDecision id_le.
Proof. intros a b; unfold id_le; apply _. Defined.
#[global] Instance queueTime_le_dec : RelDecision queueTime_le.
Proof. intros a b; unfold queueTime_le; apply _. Defined.
#[global] Instance targetId_le_dec : RelDecision targetId_le.
Proof. intros a b; unfold targetId_le; apply _. Defined.

(** [memTxn.Get(jobTableName, jobIdIndexName+"_prefix", "")]: every object
    of the primary index, by id. *)
Definition Get_id_prefix (s : State) : list (nat * jobIndex.t) :=
  merge_sort id_le (records s).

(** [memTxn.LowerBound(jobTableName, jobQueueTimeIndexName, st, t)]: the
    entries of index "queue-time" from [(st, t)] on. *)
Definition LowerBound_queueTime (st : pb.Job_State) (t : Z) (s : State)
  : list (nat * jobIndex.t) :=
  objects s
    (filter (fun e => not_Gt (queueTime_compare (pb.Job_State_value st, t) e.1.1))
       (merge_sort queueTime_le (map_to_list (queue_time (inmem s))))).

(** [memTxn.LowerBound(jobTableName, jobTargetIdIndexName, st, id, t)]: the
    entries of index "target-id" from [(st, lowercase id, t)] on. *)
Definition LowerBound_targetId (st : pb.Job_State) (id : string) (t : Z) (s : State)
  : list (nat * jobIndex.t) :=
  objects s
    (filter (fun e => not_Gt (targetId_compare (pb.Job_State_value st, ToLower id, t) e.1))
       (merge_sort targetId_le (map_to_list (target_id (inmem s))))).

(** ** Queries *)

(** [JobList]: one entry per index record; the error of the read is
    overwritten by the next iteration and never returned. An entry is a
    [*pb.Job]: [None] is nil. *)
Definition JobList (s : State) : result (list (option pb.Job.t)) :=
  Ok (map (fun r => let '(job, err) := jobById (jobIndex.Id r.2) s in Some job)
          (Get_id_prefix s)).

(** [JobById]: both components of Go's result pair, job and error, are
    returned. *)
Definition JobById (id : string) (s : State) : option Job.t * option error :=
  match First id s with
  | (Ok (Some p), _) =>
      match load p s with
      | (Ok jobIdx, _) =>
          let blocked :=
            if decide (jobIndex.State jobIdx = pb.Job_QUEUED)
            then jobIsBlocked jobIdx s
            else (Ok false, s) in
          match blocked with
          | (Ok blocked, _) =>
              let '(job, err) := jobById (jobIndex.Id jobIdx) s in
              (Some (Job.mk job (jobIndex.OutputBuffer jobIdx) blocked), err)
          | (Err e, _) => (None, Some e)
          end
      | (Err e, _) => (None, Some e)
      end
  | (Ok None, _) => (None, None)
  | (Err e, _) => (None, Some e)
  end.

(** ** Assignment *)

(** The scan loop of [jobCandidateById]. *)
Fixpoint jobCandidateById_loop (r : pb.Runner.t) (iter : list (nat * jobIndex.t))
  : M (option nat) :=
  match iter with
  | [] => ret None
  | (p, job) :: iter =>
      if decide (jobIndex.State job ≠ pb.Job_QUEUED
                 ∨ jobIndex.TargetRunnerId job ≠ pb.Runner.Id r)
      then jobCandidateById_loop r iter
      else
        let* blocked := jobIsBlocked job in
        if blocked then jobCandidateById_loop r iter
        else ret (Some p)
  end.

Definition jobCandidateById (r : pb.Runner.t) : M (option nat) :=
  let* iter := gets (LowerBound_targetId pb.Job_QUEUED (pb.Runner.Id r) 0) in
  jobCandidateById_loop r iter.

(** The scan loop of [jobCandidateAny]. *)
Fixpoint jobCandidateAny_loop (iter : list (nat * jobIndex.t)) : M (option nat) :=
  match iter with
  | [] => ret None
  | (p, job) :: iter =>
      if decide (jobIndex.State job ≠ pb.Job_QUEUED ∨ jobIndex.TargetAny job = false)
      then jobCandidateAny_loop iter
      else
        let* blocked := jobIsBlocked job in
        if blocked then jobCandidateAny_loop iter
        else ret (Some p)
  end.

Definition jobCandidateAny (r : pb.Runner.t) : M (option nat) :=
  let* iter := gets (LowerBound_queueTime pb.Job_QUEUED 0) in
  jobCandidateAny_loop iter.

Definition candidateQuery (r : pb.Runner.t) : list (pb.Runner.t -> M (option nat)) :=
  if pb.Runner.ByIdOnly r then [jobCandidateById]
  else [jobCandidateById; jobCandidateAny].

(** "Build the list of candidates". *)
Fixpoint build_candidates (fs : list (pb.Runner.t -> M (option nat))) (r : pb.Runner.t)
  : M (list nat) :=
  match fs with
  | [] => ret []
  | f :: fs =>
      let* job := f r in
      let* rest := build_candidates fs r in
      ret (match job with Some p => p :: rest | None => rest end)
  end.

(** [sort.Slice] on a short slice is Go's insertion sort: element [i] moves
    left while [less] holds against its left neighbour. [sink] works on the
    sorted prefix in reverse. *)
Fixpoint sink {A} (less : A -> A -> bool) (x : A) (rev_prefix : list A) : list A :=
  match rev_prefix with
  | [] => [x]
  | y :: rest => if less x y then y :: sink less x rest else x :: y :: rest
  end.

Definition sort_Slice {A} (less : A -> A -> bool) (l : list A) : list A :=
  rev (fold_left (fun acc x => sink less x acc) l []).

(** [candidates[i].QueueTime.Before(candidates[j].QueueTime)]. *)
Definition candidate_less (s : State) (p q : nat) : bool :=
  match heap s !! p, heap s !! q with
  | Some a, Some b => (jobIndex.QueueTime a <? jobIndex.QueueTime b)%Z
  | _, _ => false
  end.

(** The loop over the sorted candidates, under the write lock. *)
Fixpoint assign_loop (candidates : list nat) : M (option Job.t) :=
  match candidates with
  | [] => ret None
  | c :: candidates =>
      let* job := load c in
      let* raw := First (jobIndex.Id job) in
      match raw with
      | None => assign_loop candidates
      | Some p =>
          let* job := load p in
          if decide (jobIndex.State job ≠ pb.Job_QUEUED) then assign_loop candidates
          else
            let* blocked := jobIsBlocked job in
            if blocked then assign_loop candidates
            else
              do* update p (jobIndex.set_State pb.Job_WAITING) in
              let* result := jobReadAndUpdate (jobIndex.Id job) (fun jobpb =>
                let* job := load p in
                let jobpb := pb.Job.set_State (jobIndex.State job) jobpb in
                let* t := time_Now in
                ret (pb.Job.set_AssignTime (Some t) jobpb)) in
              let* h := time_AfterFunc jobWaitingTimeout (cb_JobAck (jobIndex.Id job) false) in
              do* update p (jobIndex.set_StateTimer (Some h)) in
              do* txn_Insert p in
              let* job := load p in
              do* jobAssignedSet job true in
              ret (Some (jobIndex_Job job result))
      end
  end.

(** [JobAssignForRunner]. [Ok None] stands for the two places where the
    source goes back to [RETRY_ASSIGN]: after waiting on the watch set when
    there is no candidate, and when every candidate turned out invalid.
    The deferred [Abort] of the source is bound to the read transaction, so
    a failing return inside the loop leaves the write transaction open; its
    table writes are never committed, which is what [Txn_write] gives. *)
Definition JobAssignForRunner (r : pb.Runner.t) : M (option Job.t) :=
  let* candidates := build_candidates (candidateQuery r) r in
  match candidates with
  | [] => ret None
  | _ =>
      let* candidates := gets (fun s => sort_Slice (candidate_less s) candidates) in
      Txn_write (assign_loop candidates)
  end.

(** ** Lifecycle verbs *)

Definition job_not_found (id : string) : error :=
  status.Errorf codes.NotFound ("job not found: " ++ id).

(** [JobAck]. *)
Definition JobAck (id : string) (ack : bool) : M Job.t :=
  Txn_write (
    let* raw := First id in
    match raw with
    | None => fail (job_not_found id)
    | Some p =>
        let* job := load p in
        if decide (jobIndex.State job ≠ pb.Job_WAITING) then
          fail (status.Errorf codes.FailedPrecondition
                  ("job can't be acked from state: "
                     ++ pb.Job_State_String (jobIndex.State job)))
        else
          let* result := jobReadAndUpdate (jobIndex.Id job) (fun jobpb =>
            if ack then
              do* update p (jobIndex.set_State pb.Job_RUNNING) in
              let* job := load p in
              let jobpb := pb.Job.set_State (jobIndex.State job) jobpb in
              let* t := time_Now in
              let jobpb := pb.Job.set_AckTime (Some t) jobpb in
              let* b := logbuffer_New in
              do* update p (jobIndex.set_OutputBuffer (Some b)) in
              ret jobpb
            else
              do* update p (jobIndex.set_State pb.Job_QUEUED) in
              let* job := load p in
              let jobpb := pb.Job.set_State (jobIndex.State job) jobpb in
              ret (pb.Job.set_AssignTime None jobpb)) in
          (* Cancel our timer *)
          let* job := load p in
          do* match jobIndex.StateTimer job with
              | Some h =>
                  do* timer_Stop h in
                  update p (jobIndex.set_StateTimer None)
              | None => ret tt
              end in
          (* Create a new timer that we'll use for our heartbeat *)
          let* h := time_AfterFunc jobHeartbeatTimeout (cb_JobCancel (jobIndex.Id job) true) in
          do* update p (jobIndex.set_StateTimer (Some h)) in
          do* txn_Insert p in
          let* job := load p in
          do* (if negb ack then jobAssignedSet job false else ret tt) in
          ret (jobIndex_Job job result)
    end).

(** [JobComplete]. *)
Definition JobComplete (id : string) (result : option pb.Job_Result) (cerr : option error)
  : M unit :=
  Txn_write (
    let* raw := First id in
    match raw with
    | None => fail (job_not_found id)
    | Some p =>
        let* job := load p in
        do* jobAssignedSet job false in
        if decide (jobIndex.State job ≠ pb.Job_RUNNING) then
          fail (status.Errorf codes.FailedPrecondition
                  ("job can't be completed from state: "
                     ++ pb.Job_State_String (jobIndex.State job)))
        else
          let* _ := jobReadAndUpdate (jobIndex.Id job) (fun jobpb =>
            do* update p (jobIndex.set_State pb.Job_SUCCESS) in
            let* job := load p in
            let jobpb := pb.Job.set_State (jobIndex.State job) jobpb in
            let jobpb := pb.Job.set_Result result jobpb in
            let* t := time_Now in
            let jobpb := pb.Job.set_CompleteTime (Some t) jobpb in
            match cerr with
            | Some e =>
                do* update p (jobIndex.set_State pb.Job_ERROR) in
                let* job := load p in
                let jobpb := pb.Job.set_State (jobIndex.State job) jobpb in
                ret (pb.Job.set_Error (Some (status.FromError e)) jobpb)
            | None => ret jobpb
            end) in
          do* End_ p in
          txn_Insert p
    end).

(** "Persist the on-disk data" and "Store the inmem data" of [jobCancel]. *)
Definition jobCancel_persist (p : nat) : M unit :=
  let* job := load p in
  let* _ := jobReadAndUpdate (jobIndex.Id job) (fun jobpb =>
    let* job := load p in
    let jobpb := pb.Job.set_State (jobIndex.State job) jobpb in
    let* t := time_Now in
    let jobpb := pb.Job.set_CancelTime (Some t) jobpb in
    if decide (pb.Job.State jobpb = pb.Job_ERROR) then
      ret (pb.Job.set_Error (Some (status.mkStatus codes.Canceled "canceled")) jobpb)
    else ret jobpb) in
  txn_Insert p.

(** [jobCancel]. *)
Definition jobCancel (p : nat) (force : bool) : M unit :=
  let* job := load p in
  match jobIndex.State job with
  | pb.Job_ERROR | pb.Job_SUCCESS => ret tt
  | pb.Job_QUEUED =>
      do* update p (jobIndex.set_State pb.Job_ERROR) in
      jobCancel_persist p
  | pb.Job_WAITING | pb.Job_RUNNING =>
      do* (if force then
             do* update p (jobIndex.set_State pb.Job_ERROR) in
             End_ p
           else ret tt) in
      jobCancel_persist p
  | pb.Job_UNKNOWN => jobCancel_persist p
  end.

(** [JobCancel]. *)
Definition JobCancel (id : string) (force : bool) : M unit :=
  Txn_write (
    let* raw := First id in
    match raw with
    | None => fail (job_not_found id)
    | Some p => jobCancel p force
    end).

(** [jobHeartbeat]. *)
Definition jobHeartbeat (id : string) : M unit :=
  let* raw := First id in
  match raw with
  | None => fail (job_not_found id)
  | Some p =>
      let* job := load p in
      if decide (jobIndex.State job ≠ pb.Job_RUNNING) then ret tt
      else
        match jobIndex.StateTimer job with
        | None => ret tt
        | Some h => timer_Reset h jobHeartbeatTimeout
        end
  end.

(** [JobHeartbeat]. *)
Definition JobHeartbeat (id : string) : M unit :=
  Txn_write (jobHeartbeat id).

(** [JobExpire]. *)
Definition JobExpire (id : string) : M unit :=
  Txn_write (
    let* raw := First id in
    match raw with
    | None => fail (job_not_found id)
    | Some p =>
        let* job := load p in
        match jobIndex.State job with
        | pb.Job_QUEUED | pb.Job_WAITING => jobCancel p false
        | _ => ret tt
        end
    end).

(** ** Timer callbacks *)

(** What the runtime does when an armed timer fires: the closure runs and
    its result is dropped. *)
Definition run_callback (f : callback) (s : State) : State :=
  match f with
  | cb_JobAck id ack => (JobAck id ack s).2
  | cb_JobCancel id force => (JobCancel id force s).2
  | cb_JobExpire id => (JobExpire id s).2
  end.

Definition timer_fire (h : nat) (s : State) : State :=
  match timers s !! h with
  | Some t =>
      if active t then
        run_callback (fn t)
          (set_timers (<[h := mkTimer (fn t) (deadline t) false]> (timers s)) s)
      else s
  | None => s
  end.

(** ** Runs of the scheduler *)

(** The initial, empty scheduler at clock [t]. *)
Definition empty_State (t : Z) : State :=
  mkState (mkMemDB ∅ ∅ ∅ ∅) ∅ [] [] 0 t.

(** The clock moves on. *)
Definition tick (d : Z) (s : State) : State :=
  mkState (inmem s) (db s) (heap s) (timers s) (buffers s) (now s + d).

(** What can happen to a scheduler: a call of a state-changing verb, the
    passing of time, or an armed timer going off. *)
Inductive event :=
| ev_JobCreate (jobpb : pb.Job.t)
| ev_JobAssignForRunner (r : pb.Runner.t)
| ev_JobAck (id : string) (ack : bool)
| ev_JobComplete (id : string) (result : option pb.Job_Result) (cerr : option error)
| ev_JobCancel (id : string) (force : bool)
| ev_JobHeartbeat (id : string)
| ev_JobExpire (id : string)
| ev_tick (d : Z)
| ev_timer (h : nat).

Definition apply_event (s : State) (e : event) : State :=
  match e with
  | ev_JobCreate jobpb => (JobCreate jobpb s).2
  | ev_JobAssignForRunner r => (JobAssignForRunner r s).2
  | ev_JobAck id ack => (JobAck id ack s).2
  | ev_JobComplete id result cerr => (JobComplete id result cerr s).2
  | ev_JobCancel id force => (JobCancel id force s).2
  | ev_JobHeartbeat id => (JobHeartbeat id s).2
  | ev_JobExpire id => (JobExpire id s).2
  | ev_tick d => tick d s
  | ev_timer h => timer_fire h s
  end.

Definition run (trace : list event) (s : State) : State :=
  fold_left apply_event trace s.

(** The schedulers that a run from an empty one can produce. *)
Definition reachable (s : State) : Prop :=
  ∃ t trace, s = run trace (empty_State t).

(** A RUNNING index record has a state timer. *)
Definition running_has_timer (idx : jobIndex.t) : Prop :=
  jobIndex.State idx = pb.Job_RUNNING → jobIndex.StateTimer idx ≠ None.

(** Every entry of the primary index points to a heap object with that id
    and has a persisted record. *)
Definition store_ok (s : State) : Prop :=
  ∀ id p, jobs (inmem s) !! id = Some p →
    (∃ job, heap s !! p = Some job ∧ jobIndex.Id job = id)
    ∧ is_Some (db s !! id).

(** WAITING and RUNNING: the states in which a job holds its scope. *)
Definition in_flight (st : pb.Job_State) : Prop :=
  st = pb.Job_WAITING ∨ st = pb.Job_RUNNING.

(** The target fields of an index record are those [jobIndexSet] derives
    from the persisted selector. *)
Definition target_agrees (job : jobIndex.t) (rec : pb.Job.t) : Prop :=
  match pb.Job.TargetRunner rec with
  | Some (pb.mkRunnerRef (Some pb.Ref_Runner_Any)) =>
      jobIndex.TargetAny job = true ∧ jobIndex.TargetRunnerId job = ""
  | Some (pb.mkRunnerRef (Some (pb.Ref_Runner_Id v))) =>
      jobIndex.TargetAny job = false ∧ jobIndex.TargetRunnerId job = v
  | _ => False
  end.

(** An index record and a persisted record describe the same job [id]. *)
Definition agrees (id : string) (job : jobIndex.t) (rec : pb.Job.t) : Prop :=
  jobIndex.Id job = id
  ∧ pb.Job.Id rec = id
  ∧ pb.Job.State rec = jobIndex.State job
  ∧ pb.Job.QueueTime rec = Some (jobIndex.QueueTime job)
  ∧ pb.Job.Application rec = jobIndex.Application job
  ∧ pb.Job.Workspace rec = jobIndex.Workspace job
  ∧ pb.Job.Operation rec = jobIndex.OpType job
  ∧ target_agrees job rec
  ∧ (in_flight (jobIndex.State job) → jobIndex.StateTimer job ≠ None).

(** Index, heap, bucket and scope tracker fit together: every index entry
    has its object and its persisted record, the two agree, and a job that
    is WAITING or RUNNING is the one its scope is assigned to. *)
Definition coherent_on (jobs : gmap string nat) (assigned : gmap Scope string)
    (heap : list jobIndex.t) (db : gmap string pb.Job.t) : Prop :=
  ∀ id p, jobs !! id = Some p →
    ∃ job rec,
      heap !! p = Some job ∧ db !! id = Some rec ∧ agrees id job rec
      ∧ (in_flight (jobIndex.State job) → assigned !! scope_of job = Some id).

Definition coherent (s : State) : Prop :=
  coherent_on (jobs (inmem s)) (assigned (inmem s)) (heap s) (db s).

(** The jobs a runner may be given: those that target it by id, and, for a
    runner that is not by-id-only, those that target any runner. *)
Definition eligible (r : pb.Runner.t) (job : jobIndex.t) : Prop :=
  jobIndex.TargetRunnerId job = pb.Runner.Id r
  ∨ (jobIndex.TargetAny job = true ∧ pb.Runner.ByIdOnly r = false).

(** ** Assignability *)

(** What a call gives when it may panic: Go's result pair, or the panic. *)
Inductive outcome (A : Type) :=
| Returned (a : A) (err : option error)
| Panicked (msg : string).
Arguments Returned {A} a err.
Arguments Panicked {A} msg.

(** Modelled from the spec: the runner table is declared outside job.go;
    §6, runner registry: [Empty() → bool], lower-bound iteration by runner
    id, lookup by id returning a record with [ByIdOnly]. The registry is the
    list of its records in id order, and ids are compared as written. *)
Definition runnerEmpty (runners : list pb.Runner.t) : bool :=
  match runners with
  | [] => true
  | _ => false
  end.

(** Modelled from the spec: [memTxn.LowerBound(runnerTableName,
    runnerIdIndexName, id)], the records from [id] on (§6, lower-bound
    iteration by runner id). *)
Definition runner_LowerBound (runners : list pb.Runner.t) (id : string)
  : list pb.Runner.t :=
  filter (fun r => not_Gt (String.compare id (pb.Runner.Id r))) runners.

(** Modelled from the spec: [memTxn.Get(runnerTableName, runnerIdIndexName,
    id)], the records of that id (§6, lookup by id). *)
Definition runner_Get (runners : list pb.Runner.t) (id : string) : list pb.Runner.t :=
  filter (fun r => pb.Runner.Id r = id) runners.

(** The scan loop of [JobIsAssignable]; [targetCheck] may be nil. *)
Fixpoint JobIsAssignable_loop (targetCheck : option (pb.Runner.t -> bool))
    (iter : list pb.Runner.t) : bool :=
  match iter with
  | [] => false
  | runner :: iter =>
      match targetCheck with
      | Some check =>
          if check runner then true else JobIsAssignable_loop targetCheck iter
      | None => true
      end
  end.

(** [JobIsAssignable]. The source reads [jobpb.TargetRunner.Target] through
    the pointer, so a job without target runner panics once the registry is
    known to be non-empty. *)
Definition JobIsAssignable (runners : list pb.Runner.t) (jobpb : pb.Job.t)
  : outcome bool :=
  if runnerEmpty runners then Returned false None
  else
    match pb.Job.TargetRunner jobpb with
    | None => Panicked "invalid memory address or nil pointer dereference"
    | Some tr =>
        match pb.Target tr with
        | Some pb.Ref_Runner_Any =>
            Returned
              (JobIsAssignable_loop (Some (fun r => negb (pb.Runner.ByIdOnly r)))
                 (runner_LowerBound runners ""))
              None
        | Some (pb.Ref_Runner_Id v) =>
            Returned (JobIsAssignable_loop None (runner_Get runners v)) None
        | None =>
            Returned false
              (Some (status.PlainError "unknown runner target value: <nil>"))
        end
    end.

(** ** Startup *)

(** The pairs of the bucket in the order [bucket.ForEach] visits them: bolt
    keeps the keys in byte order. *)
Definition key_le (a b : string * pb.Job.t) : Prop :=
  not_Gt (String.compare a.1 b.1).

#[global] Instance key_le_dec : RelDecision key_le.
Proof. intros a b; unfold key_le; apply _. Defined.

Definition bucket_pairs (s : State) : list (string * pb.Job.t) :=
  merge_sort key_le (map_to_list (db s)).

(** [bucket.ForEach(fn)]: the first error stops the scan and is returned. *)
Fixpoint ForEach (kvs : list (string * pb.Job.t)) (fn : string -> pb.Job.t -> M unit)
  : M unit :=
  match kvs with
  | [] => ret tt
  | (k, v) :: kvs => do* fn k v in ForEach kvs fn
  end.

(** [jobIndexInit]: the index, the timers and the scope tracker are built
    again from the persisted records. The bucket holds jobs, so the
    unmarshalling step has no failing branch here. *)
Definition jobIndexInit : M unit :=
  let* kvs := gets bucket_pairs in
  ForEach kvs (fun k value =>
    let* idx := jobIndexSet k value in
    if decide (pb.Job.State value = pb.Job_RUNNING ∨ pb.Job.State value = pb.Job_WAITING)
    then
      let* job := load idx in
      jobAssignedSet job true
    else ret tt).

(** Modelled from the spec: the caller of [jobIndexInit] is outside job.go;
    §6, startup recovery: the process comes up with nothing in memory and
    scans the bucket. [startup t bucket] is a process that has just opened
    [bucket] at clock [t]. *)
Definition startup (t : Z) (bucket : gmap string pb.Job.t) : State :=
  mkState (mkMemDB ∅ ∅ ∅ ∅) bucket [] [] 0 t.

(** Every persisted job is indexed. *)
Definition all_indexed_on (jobs : gmap string nat) (db : gmap string pb.Job.t) : Prop :=
  ∀ id, is_Some (db !! id) → is_Some (jobs !! id).

Definition all_indexed (s : State) : Prop :=
  all_indexed_on (jobs (inmem s)) (db s).

(** ** The secondary indexes along a run *)

(** The secondary indexes are in order: every entry points to the object
    that the primary index holds for the id of that object, and carries its
    queue time and its id, or its lowercase target runner id and its queue
    time (the state part of a key may be that of an earlier insert); and
    every object of the primary index has its entry in index "queue-time"
    under the key of its present fields, and some entry in index "target-id"
    under that key, if it has one. *)
Definition index_ok_on (jobs : gmap string nat) (heap : list jobIndex.t)
    (qt : gmap (Z * Z * string) nat) (tg : gmap (Z * string * Z) nat) : Prop :=
  (∀ k p, qt !! k = Some p →
     ∃ job, heap !! p = Some job ∧ jobs !! jobIndex.Id job = Some p
       ∧ k.1.2 = jobIndex.QueueTime job ∧ k.2 = jobIndex.Id job)
  ∧ (∀ k p, tg !! k = Some p →
     ∃ job, heap !! p = Some job ∧ jobs !! jobIndex.Id job = Some p
       ∧ k.1.2 = ToLower (jobIndex.TargetRunnerId job)
       ∧ k.2 = jobIndex.QueueTime job)
  ∧ (∀ id p job, jobs !! id = Some p → heap !! p = Some job →
       (∀ k, queueTime_key job = Some k → qt !! k = Some p)
       ∧ (∀ k, targetId_key job = Some k → is_Some (tg !! k))).

Definition index_ok (s : State) : Prop :=
  index_ok_on (jobs (inmem s)) (heap s) (queue_time (inmem s)) (target_id (inmem s)).

(** A run in which every [JobCreate] uses an id that is not in use. *)
Fixpoint fresh_ids (trace : list event) (s : State) : Prop :=
  match trace with
  | [] => True
  | e :: trace =>
      match e with
      | ev_JobCreate jobpb => jobs (inmem s) !! pb.Job.Id jobpb = None
      | _ => True
      end
      ∧ fresh_ids trace (apply_event s e)
  end.

(** The schedulers that such a run produces from an empty one. *)
Definition reachable_fresh (s : State) : Prop :=
  ∃ t trace, fresh_ids trace (empty_State t) ∧ s = run trace (empty_State t).

(** SUCCESS and ERROR: the states of a finished job. *)
Definition finished (st : pb.Job_State) : Prop :=
  st = pb.Job_SUCCESS ∨ st = pb.Job_ERROR.

(** What [JobCreate] was told about a job: everything but the state, the
    result, the error and the time stamps of the transitions. *)
Definition same_job (a b : pb.Job.t) : Prop :=
  pb.Job.Id a = pb.Job.Id b
  ∧ pb.Job.Application a = pb.Job.Application b
  ∧ pb.Job.Workspace a = pb.Job.Workspace b
  ∧ pb.Job.TargetRunner a = pb.Job.TargetRunner b
  ∧ pb.Job.Operation a = pb.Job.Operation b
  ∧ pb.Job.QueueTime a = pb.Job.QueueTime b
  ∧ pb.Job.ExpireTime a = pb.Job.ExpireTime b.

(** The event is a [JobCreate] of a job with this id. *)
Definition creates (id : string) (e : event) : Prop :=
  match e with
  | ev_JobCreate jobpb => pb.Job.Id jobpb = id
  | _ => False
  end.

(** From one scheduler to a later one the job [id] is kept: it is indexed
    at the same object and persisted, it is the same job, and nothing of it
    changed if it had finished. *)
Definition kept_on (id : string)
    (jobs : gmap string nat) (heap : list jobIndex.t) (db : gmap string pb.Job.t)
    (jobs' : gmap string nat) (heap' : list jobIndex.t) (db' : gmap string pb.Job.t)
  : Prop :=
  ∀ p job rec,
    jobs !! id = Some p → heap !! p = Some job → db !! id = Some rec →
    ∃ job' rec',
      jobs' !! id = Some p ∧ heap' !! p = Some job' ∧ db' !! id = Some rec'
      ∧ same_job rec rec'
      ∧ (finished (jobIndex.State job) → job' = job ∧ rec' = rec).

Definition kept (id : string) (s s' : State) : Prop :=
  kept_on id (jobs (inmem s)) (heap s) (db s) (jobs (inmem s')) (heap s') (db s').

(** ** Views used by the statements *)

(** The index record of a job id. *)
Definition index_of (s : State) (id : string) : option jobIndex.t :=
  p ← jobs (inmem s) !! id; heap s !! p.

(** A timer handle is live when it names an armed timer. *)
Definition live (s : State) (h : nat) : Prop :=
  ∃ t, timers s !! h = Some t ∧ active t = true.

(** Invariant 2 of §3 for one index record. *)
Definition timer_inv (idx : jobIndex.t) : Prop :=
  jobIndex.StateTimer idx ≠ None →
  jobIndex.State idx = pb.Job_WAITING ∨ jobIndex.State idx = pb.Job_RUNNING.

(** Running a verb for its state. *)
Definition exec {A} (m : M A) (s : State) : State := (m s).2.

(** [id] is indexed: the primary index maps it to a live object that
    carries the same id. *)
Definition indexed (s : State) (id : string) (p : nat) (job : jobIndex.t) : Prop :=
  jobs (inmem s) !! id = Some p ∧ heap s !! p = Some job ∧ jobIndex.Id job = id.

(** Every record of the primary index is stored under its own id. *)
Definition index_keyed (s : State) : Prop :=
  ∀ id p job, jobs (inmem s) !! id = Some p → heap s !! p = Some job →
    jobIndex.Id job = id.

(** The same, as a check that computes. *)
Definition index_keyed_b (s : State) : bool :=
  forallb (fun x : string * nat =>
             match heap s !! x.2 with
             | Some job => bool_decide (jobIndex.Id job = x.1)
             | None => true
             end)
          (map_to_list (jobs (inmem s))).

(** A stopped copy of a timer. *)
Definition stopped (t : Timer) : Timer := mkTimer (fn t) (deadline t) false.

(** The final state [JobComplete] gives for a completion error. *)
Definition completed_state (cerr : option error) : pb.Job_State :=
  match cerr with
  | None => pb.Job_SUCCESS
  | Some _ => pb.Job_ERROR
  end.

(** The scope of a persisted job: what [scope_of] gives for its index
    record. *)
Definition job_scope (rec : pb.Job.t) : Scope :=
  (match pb.Job.Application rec with
   | Some a => (pb.Project a, pb.Application a)
   | None => ("", "")
   end,
   match pb.Job.Workspace rec with
   | Some w => pb.Workspace w
   | None => ""
   end).

(** What startup owes the persisted job [rec] of key [id]: an index record
    that agrees with it; for a WAITING job an armed timer that nacks it after
    [jobWaitingTimeout], for a RUNNING job an armed timer that force-cancels
    it after [jobHeartbeatTimeout], no state timer otherwise; the scope held
    by a WAITING or RUNNING job; and an armed expiry timer for a job with an
    expire time. *)
Definition restored (s : State) (id : string) (rec : pb.Job.t) : Prop :=
  ∃ job,
    index_of s id = Some job
    ∧ agrees id job rec
    ∧ match pb.Job.State rec with
      | pb.Job_WAITING =>
          ∃ h, jobIndex.StateTimer job = Some h
            ∧ timers s !! h
              = Some (mkTimer (cb_JobAck id false) (now s + jobWaitingTimeout) true)
      | pb.Job_RUNNING =>
          ∃ h, jobIndex.StateTimer job = Some h
            ∧ timers s !! h
              = Some (mkTimer (cb_JobCancel id true) (now s + jobHeartbeatTimeout) true)
      | _ => jobIndex.StateTimer job = None
      end
    ∧ (in_flight (pb.Job.State rec) → assigned (inmem s) !! job_scope rec = Some id)
    ∧ (∀ t, pb.Job.ExpireTime rec = Some t →
         ∃ h, timers s !! h
              = Some (mkTimer (cb_JobExpire id)
                        (now s + (if (time_Sub t (now s) <? 0)%Z then 1
                                  else time_Sub t (now s))) true)).

(** ** Sample schedulers *)

Module Sample.
(** Jobs of application P/X in workspace W. *)
Definition job (id : string) (target : option pb.Ref_Runner) : pb.Job.t :=
  pb.Job.mk id (Some (pb.mkApplication "X" "P")) (Some (pb.mkWorkspace "W"))
    target (Some 1) pb.Job_UNKNOWN None None None None None None None None.

Definition any : option pb.Ref_Runner := Some (pb.mkRunnerRef (Some pb.Ref_Runner_Any)).
Definition to (id : string) : option pb.Ref_Runner :=
  Some (pb.mkRunnerRef (Some (pb.Ref_Runner_Id id))).
Definition unset_target : option pb.Ref_Runner := Some (pb.mkRunnerRef None).

Definition runner : pb.Runner.t := pb.Runner.mk "R" false.

(** "g" queued at time 1000. *)
Definition queued : State := exec (JobCreate (job "g" any)) (empty_State 1000).
(** "g" assigned to the runner: WAITING. *)
Definition waiting : State := exec (JobAssignForRunner runner) queued.
(** "g" nacked: QUEUED again. *)
Definition nacked : State := exec (JobAck "g" false) waiting.
(** "g" accepted: RUNNING. *)
Definition running : State := exec (JobAck "g" true) waiting.
(** "g" RUNNING and "d" QUEUED behind it in the same scope. *)
Definition running_and_queued : State := exec (JobCreate (job "d" any)) running.
(** "g" force-cancelled while "d" is queued behind it. *)
Definition cancelled_and_queued : State := exec (JobCancel "g" true) running_and_queued.
(** "e" for any runner at time 1000, "f" for runner R one tick later. *)
Definition any_then_targeted : State :=
  exec (JobCreate (job "f" (to "R")))
    (tick 1 (exec (JobCreate (job "e" any)) (empty_State 1000))).
(** "e" for any runner and "f" for runner R queued at the same time. *)
Definition any_and_targeted_tie : State :=
  exec (JobCreate (job "f" (to "R")))
    (exec (JobCreate (job "e" any)) (empty_State 1000)).
(** "g" is indexed but its persisted record is gone. *)
Definition unreadable : State := set_db ∅ queued.
End Sample.

(** * Proofs *)

(** Symbolic execution of a verb: unfold the monad, reduce, and resolve the
    lookups that the hypotheses or the map laws decide. *)
Ltac msimpl :=
  cbn -[lookup insert alter delete app length decide String.append
        pb.Job_State_String Z.add Z.mul jobHeartbeatTimeout jobWaitingTimeout
        job_not_found blocked_in existing index_Insert time_Sub] in *.

Ltac munfold :=
  cbv beta delta [JobAck JobComplete JobCancel jobCancel jobCancel_persist
    JobHeartbeat jobHeartbeat JobExpire End_ Txn_write db_Update jobReadAndUpdate
    jobById dbGet dbPut First txn_Insert load update jobAssignedSet jobIsBlocked
    time_Now time_AfterFunc timer_Stop timer_Reset logbuffer_New
    set_inmem set_db set_heap set_timers set_buffers set_jobs set_assigned
    set_queue_time set_target_id table_Insert
    bind gets modify fail ret].

Ltac mlookup :=
  first
    [ rewrite list_lookup_alter_eq
    | match goal with
      | H : ?l !! ?i = _ |- context [?l !! ?i] => rewrite H
      end
    | rewrite lookup_insert_eq
    | rewrite decide_False by congruence
    | rewrite decide_True by congruence ].

Ltac mrun := munfold; msimpl; repeat (mlookup; msimpl).

(** Closed facts about the sample schedulers, by evaluation. *)
Ltac by_evaluation :=
  repeat (apply conj; [vm_compute; reflexivity|]); vm_compute; reflexivity.

(** Opening a state and an index record so that projections compute. *)
Ltac open_state s :=
  destruct s as [[? ? ? ?] ? ? ? ? ?]; msimpl.

Ltac open_indexed H :=
  let Hj := fresh "Hjobs" in
  let Hh := fresh "Hheap" in
  let Hi := fresh "Hid" in
  destruct H as (Hj & Hh & Hi).

Section Lookup.

Lemma index_of_indexed s id p job :
  indexed s id p job → index_of s id = Some job.
Proof.
  intros (Hj & Hh & _). unfold index_of. rewrite Hj. exact Hh.
Qed.

Lemma First_missing s id :
  index_of s id = None → First id s = (Ok None, s).
Proof.
  unfold index_of, First, gets. intros H.
  destruct (jobs (inmem s) !! id) as [p|]; [|reflexivity].
  cbn in H. rewrite H. reflexivity.
Qed.

Lemma job_not_found_code id :
  status.CodeOf (Some (job_not_found id)) = codes.NotFound.
Proof. reflexivity. Qed.

End Lookup.

Section NotFound.

Variables (s : State) (id : string).
Hypothesis Hmiss : index_of s id = None.

Lemma JobAck_missing ack : JobAck id ack s = (Err (job_not_found id), s).
Proof.
  unfold JobAck, Txn_write, bind. rewrite (First_missing _ _ Hmiss).
  destruct s as [[? ? ? ?] ? ? ? ? ?]. reflexivity.
Qed.

Lemma JobComplete_missing res cerr :
  JobComplete id res cerr s = (Err (job_not_found id), s).
Proof.
  unfold JobComplete, Txn_write, bind. rewrite (First_missing _ _ Hmiss).
  destruct s as [[? ? ? ?] ? ? ? ? ?]. reflexivity.
Qed.

Lemma JobCancel_missing force : JobCancel id force s = (Err (job_not_found id), s).
Proof.
  unfold JobCancel, Txn_write, bind. rewrite (First_missing _ _ Hmiss).
  destruct s as [[? ? ? ?] ? ? ? ? ?]. reflexivity.
Qed.

Lemma JobHeartbeat_missing : JobHeartbeat id s = (Err (job_not_found id), s).
Proof.
  unfold JobHeartbeat, jobHeartbeat, Txn_write, bind.
  rewrite (First_missing _ _ Hmiss).
  destruct s as [[? ? ? ?] ? ? ? ? ?]. reflexivity.
Qed.

Lemma JobExpire_missing : JobExpire id s = (Err (job_not_found id), s).
Proof.
  unfold JobExpire, Txn_write, bind. rewrite (First_missing _ _ Hmiss).
  destruct s as [[? ? ? ?] ? ? ? ? ?]. reflexivity.
Qed.

Lemma JobById_missing : JobById id s = (None, None).
Proof. unfold JobById. rewrite (First_missing _ _ Hmiss). reflexivity. Qed.

End NotFound.

(** C4 (counterexample): [JobById] on an id that was never created returns
    a nil job and a nil error, not a [NotFound] error. *)
Lemma JobById_unknown_id_no_error :
  JobById "zz" (empty_State 0) = (None, None)
  ∧ status.CodeOf (JobById "zz" (empty_State 0)).2 ≠ codes.NotFound.
Proof. split; [reflexivity | discriminate]. Qed.

(** C4 (amended): for an id that is not indexed, [JobAck], [JobComplete],
    [JobCancel], [JobHeartbeat] and [JobExpire] return the [NotFound] status
    "job not found: <id>" and leave the scheduler unchanged, while [JobById]
    returns a nil job with no error. *)
Theorem unknown_id_NotFound_except_JobById (s : State) (id : string) :
  index_of s id = None →
  (∀ ack, JobAck id ack s = (Err (job_not_found id), s))
  ∧ (∀ res cerr, JobComplete id res cerr s = (Err (job_not_found id), s))
  ∧ (∀ force, JobCancel id force s = (Err (job_not_found id), s))
  ∧ JobHeartbeat id s = (Err (job_not_found id), s)
  ∧ JobExpire id s = (Err (job_not_found id), s)
  ∧ status.CodeOf (Some (job_not_found id)) = codes.NotFound
  ∧ JobById id s = (None, None).
Proof.
  intros H. repeat split.
  - intros ack. by apply JobAck_missing.
  - intros res cerr. by apply JobComplete_missing.
  - intros force. by apply JobCancel_missing.
  - by apply JobHeartbeat_missing.
  - by apply JobExpire_missing.
  - by apply JobById_missing.
Qed.

Lemma unknown_id_NotFound_except_JobById_witness :
  index_of Sample.queued "zz" = None
  ∧ JobExpire "zz" Sample.queued = (Err (job_not_found "zz"), Sample.queued)
  ∧ JobById "zz" Sample.queued = (None, None).
Proof.
  pose proof (unknown_id_NotFound_except_JobById Sample.queued "zz") as H.
  split; [vm_compute; reflexivity|].
  destruct H as (_ & _ & _ & _ & He & _ & Hb); [reflexivity|].
  split; [exact He | exact Hb].
Defined.

Section Indexed.

Variables (s : State) (id : string) (p : nat) (job : jobIndex.t).
Hypothesis Hidx : indexed s id p job.

Lemma JobAck_wrong_state ack :
  jobIndex.State job ≠ pb.Job_WAITING →
  JobAck id ack s =
    (Err (status.Errorf codes.FailedPrecondition
            ("job can't be acked from state: "
               ++ pb.Job_State_String (jobIndex.State job))), s).
Proof.
  intros Hst. open_indexed Hidx. open_state s.
  mrun. reflexivity.
Qed.

Lemma JobComplete_wrong_state res cerr :
  jobIndex.State job ≠ pb.Job_RUNNING →
  JobComplete id res cerr s =
    (Err (status.Errorf codes.FailedPrecondition
            ("job can't be completed from state: "
               ++ pb.Job_State_String (jobIndex.State job))), s).
Proof.
  intros Hst. open_indexed Hidx. open_state s.
  mrun. reflexivity.
Qed.

Lemma JobHeartbeat_not_running :
  jobIndex.State job ≠ pb.Job_RUNNING → JobHeartbeat id s = (Ok tt, s).
Proof.
  intros Hst. open_indexed Hidx. open_state s.
  mrun. reflexivity.
Qed.

End Indexed.
Section Timers.

Lemma lookup_new_timer (l : list Timer) (t : Timer) h :
  h = length l → (l ++ [t])%list !! h = Some t.
Proof. intros ->. by apply list_lookup_middle. Qed.

Lemma lookup_old_timer (l : list Timer) (t t0 : Timer) h :
  l !! h = Some t0 → (l ++ [t])%list !! h = Some t0.
Proof. intros H. by apply lookup_app_l_Some. Qed.

Lemma lookup_stopped_timer (l : list Timer) (t0 : Timer) h :
  l !! h = Some t0 →
  alter (λ t, mkTimer (fn t) (deadline t) false) h l !! h = Some (stopped t0).
Proof. intros H. rewrite list_lookup_alter_eq, H. reflexivity. Qed.

End Timers.

Section Nack.

Variables (s : State) (id : string) (p : nat) (job : jobIndex.t) (jobpb : pb.Job.t).
Hypothesis Hidx : indexed s id p job.
Hypothesis Hst : jobIndex.State job = pb.Job_WAITING.
Hypothesis Hdb : db s !! id = Some jobpb.

(** What [JobAck id false] does to a WAITING job. *)
Lemma JobAck_nack_post :
  ∃ r s',
    JobAck id false s = (Ok r, s')
    ∧ indexed s' id p
        (jobIndex.set_StateTimer (Some (length (timers s)))
           (jobIndex.set_State pb.Job_QUEUED job))
    ∧ db s' !! id
      = Some (pb.Job.set_AssignTime None (pb.Job.set_State pb.Job_QUEUED jobpb))
    ∧ assigned (inmem s') !! scope_of job = None
    ∧ (∀ h0 t0, jobIndex.StateTimer job = Some h0 → timers s !! h0 = Some t0 →
         timers s' !! h0 = Some (stopped t0))
    ∧ timers s' !! length (timers s)
      = Some (mkTimer (cb_JobCancel id true) (now s + jobHeartbeatTimeout) true).
Proof.
  open_indexed Hidx. open_state s.
  destruct job as [jid op app ws qt tany trid st tm buf]; msimpl; subst.
  destruct tm as [h0|]; mrun.
  - eexists _, _. split; [reflexivity|]. unfold indexed. msimpl.
    rewrite length_alter.
    repeat split.
    + apply lookup_insert_eq.
    + rewrite !list_lookup_alter_eq, Hheap. reflexivity.
    + apply lookup_insert_eq.
    + apply lookup_delete_eq.
    + intros h1 t0 [= <-] Ht. apply lookup_old_timer. by apply lookup_stopped_timer.
    + apply lookup_new_timer. by rewrite length_alter.
  - eexists _, _. split; [reflexivity|]. unfold indexed. msimpl.
    repeat split.
    + apply lookup_insert_eq.
    + rewrite !list_lookup_alter_eq, Hheap. reflexivity.
    + apply lookup_insert_eq.
    + apply lookup_delete_eq.
    + intros h1 t0 [=].
    + by apply lookup_new_timer.
Qed.

End Nack.

(** C1 (code as written): [JobAck id false] on a WAITING job stops the
    waiting timer, frees the scope, clears [AssignTime] and re-queues the
    job, but then arms the heartbeat timer all the same: the job ends QUEUED
    with a live [StateTimer] whose callback is the forced cancel, and the
    timer invariant is broken. *)
Theorem JobAck_nack_leaves_live_timer
    (s : State) (id : string) (p : nat) (job : jobIndex.t) (jobpb : pb.Job.t) :
  indexed s id p job →
  jobIndex.State job = pb.Job_WAITING →
  db s !! id = Some jobpb →
  ∃ r s' idx h,
    JobAck id false s = (Ok r, s')
    ∧ index_of s' id = Some idx
    ∧ jobIndex.State idx = pb.Job_QUEUED
    ∧ (pb.Job.State <$> db s' !! id) = Some pb.Job_QUEUED
    ∧ (pb.Job.AssignTime <$> db s' !! id) = Some None
    ∧ assigned (inmem s') !! scope_of job = None
    ∧ (∀ h0 t0, jobIndex.StateTimer job = Some h0 → timers s !! h0 = Some t0 →
         timers s' !! h0 = Some (stopped t0))
    ∧ jobIndex.StateTimer idx = Some h
    ∧ timers s' !! h
      = Some (mkTimer (cb_JobCancel id true) (now s + jobHeartbeatTimeout) true)
    ∧ live s' h
    ∧ ¬ timer_inv idx.
Proof.
  intros Hidx Hst Hdb.
  destruct (JobAck_nack_post s id p job jobpb Hidx Hst Hdb)
    as (r & s' & Hrun & Hidx' & Hdb' & Hasg & Hold & Hnew).
  exists r, s', (jobIndex.set_StateTimer (Some (length (timers s)))
                   (jobIndex.set_State pb.Job_QUEUED job)), (length (timers s)).
  split; [exact Hrun|].
  split; [by eapply index_of_indexed|].
  split; [reflexivity|].
  split; [by rewrite Hdb'|].
  split; [by rewrite Hdb'|].
  split; [exact Hasg|].
  split; [exact Hold|].
  split; [reflexivity|].
  split; [exact Hnew|].
  split; [by eexists; split; [exact Hnew|]|].
  intros Hinv. destruct Hinv as [H|H]; [discriminate| |]; discriminate H.
Qed.

Lemma JobAck_nack_leaves_live_timer_witness :
  ∃ r s' idx h,
    JobAck "g" false Sample.waiting = (Ok r, s')
    ∧ index_of s' "g" = Some idx
    ∧ jobIndex.State idx = pb.Job_QUEUED
    ∧ jobIndex.StateTimer idx = Some h
    ∧ live s' h.
Proof.
  destruct (JobAck_nack_leaves_live_timer Sample.waiting "g" 0
              (jobIndex.mk "g" (Some 1) (Some (pb.mkApplication "X" "P"))
                 (Some (pb.mkWorkspace "W")) 1000 true "" pb.Job_WAITING (Some 0) None)
              (pb.Job.set_AssignTime (Some 1000%Z)
                 (pb.Job.set_QueueTime (Some 1000%Z)
                    (pb.Job.set_State pb.Job_WAITING (Sample.job "g" Sample.any)))))
    as (r & s' & idx & h & H1 & H2 & H3 & _ & _ & _ & _ & H4 & _ & H5 & _).
  - by_evaluation.
  - vm_compute; reflexivity.
  - vm_compute; reflexivity.
  - exists r, s', idx, h. repeat split; assumption.
Defined.

(** C1 (failing input): the job "g" is created, assigned and nacked. It is
    QUEUED with a live heartbeat timer (handle 1), and when that timer fires
    the queued job is force-cancelled into ERROR. *)
Lemma nacked_job_is_cancelled_by_its_timer :
  Sample.nacked
  = run [ev_JobCreate (Sample.job "g" Sample.any);
         ev_JobAssignForRunner Sample.runner; ev_JobAck "g" false]
        (empty_State 1000)
  ∧ (jobIndex.State <$> index_of Sample.nacked "g") = Some pb.Job_QUEUED
  ∧ (jobIndex.StateTimer <$> index_of Sample.nacked "g") = Some (Some 1)
  ∧ timers Sample.nacked !! 1
    = Some (mkTimer (cb_JobCancel "g" true) (1000 + jobHeartbeatTimeout) true)
  ∧ (jobIndex.State <$> index_of (timer_fire 1 Sample.nacked) "g") = Some pb.Job_ERROR.
Proof. by_evaluation. Qed.

(** C7: [JobAck] on an indexed job that is not WAITING, and [JobComplete]
    on an indexed job that is not RUNNING, fail with [FailedPrecondition]
    and a message naming the current state, and change nothing; so a second
    [JobAck id false] on a WAITING job fails that way, the first one having
    left the job QUEUED. *)
Theorem Ack_Complete_illegal_transition
    (s : State) (id : string) (p : nat) (job : jobIndex.t) :
  indexed s id p job →
  (∀ ack, jobIndex.State job ≠ pb.Job_WAITING →
     JobAck id ack s =
       (Err (status.Errorf codes.FailedPrecondition
               ("job can't be acked from state: "
                  ++ pb.Job_State_String (jobIndex.State job))), s))
  ∧ (∀ res cerr, jobIndex.State job ≠ pb.Job_RUNNING →
     JobComplete id res cerr s =
       (Err (status.Errorf codes.FailedPrecondition
               ("job can't be completed from state: "
                  ++ pb.Job_State_String (jobIndex.State job))), s))
  ∧ (∀ jobpb, jobIndex.State job = pb.Job_WAITING → db s !! id = Some jobpb →
     ∃ r s1,
       JobAck id false s = (Ok r, s1)
       ∧ (jobIndex.State <$> index_of s1 id) = Some pb.Job_QUEUED
       ∧ JobAck id false s1 =
           (Err (status.Errorf codes.FailedPrecondition
                   "job can't be acked from state: QUEUED"), s1)).
Proof.
  intros Hidx. repeat split.
  - intros ack Hst. by apply (JobAck_wrong_state s id p job).
  - intros res cerr Hst. by apply (JobComplete_wrong_state s id p job).
  - intros jobpb Hst Hdb.
    destruct (JobAck_nack_post s id p job jobpb Hidx Hst Hdb)
      as (r & s1 & Hrun & Hidx1 & _).
    exists r, s1. split; [exact Hrun|]. split.
    + by rewrite (index_of_indexed _ _ _ _ Hidx1).
    + by rewrite (JobAck_wrong_state s1 id p _ Hidx1).
Qed.

Lemma Ack_Complete_illegal_transition_witness :
  ∃ r s1,
    JobAck "g" false Sample.waiting = (Ok r, s1)
    ∧ (jobIndex.State <$> index_of s1 "g") = Some pb.Job_QUEUED
    ∧ JobAck "g" false s1 =
        (Err (status.Errorf codes.FailedPrecondition
                "job can't be acked from state: QUEUED"), s1).
Proof.
  destruct (Ack_Complete_illegal_transition Sample.waiting "g" 0
              (jobIndex.mk "g" (Some 1) (Some (pb.mkApplication "X" "P"))
                 (Some (pb.mkWorkspace "W")) 1000 true "" pb.Job_WAITING (Some 0) None))
    as (_ & _ & H).
  - by_evaluation.
  - apply (H (pb.Job.set_AssignTime (Some 1000%Z)
                (pb.Job.set_QueueTime (Some 1000%Z)
                   (pb.Job.set_State pb.Job_WAITING (Sample.job "g" Sample.any)))));
      vm_compute; reflexivity.
Defined.

(** C6: [JobComplete] on a RUNNING job succeeds; the job becomes SUCCESS
    when no error is given and ERROR otherwise, in the index and on disk;
    the result and [CompleteTime] are stored, the state timer is stopped and
    dropped, the scope is freed, and a given error is stored as its status
    (otherwise the stored error is left as it was). *)
Theorem JobComplete_running
    (s : State) (id : string) (p : nat) (job : jobIndex.t) (jobpb : pb.Job.t)
    (res : option pb.Job_Result) (cerr : option error) :
  indexed s id p job →
  jobIndex.State job = pb.Job_RUNNING →
  db s !! id = Some jobpb →
  ∃ s' idx jobpb',
    JobComplete id res cerr s = (Ok tt, s')
    ∧ index_of s' id = Some idx
    ∧ db s' !! id = Some jobpb'
    ∧ jobIndex.State idx = completed_state cerr
    ∧ pb.Job.State jobpb' = completed_state cerr
    ∧ pb.Job.Result jobpb' = res
    ∧ pb.Job.CompleteTime jobpb' = Some (now s)
    ∧ jobIndex.StateTimer idx = None
    ∧ (∀ h t, jobIndex.StateTimer job = Some h → timers s !! h = Some t →
         timers s' !! h = Some (stopped t))
    ∧ assigned (inmem s') !! scope_of job = None
    ∧ pb.Job.Error jobpb'
      = match cerr with
        | Some e => Some (status.FromError e)
        | None => pb.Job.Error jobpb
        end.
Proof.
  intros Hidx Hst Hdb. open_indexed Hidx. open_state s.
  destruct job as [jid op app ws qt tany trid st tm buf]; msimpl; subst.
  destruct cerr as [e|], tm as [h0|]; mrun;
    (eexists _, _, _; split; [reflexivity|]; unfold index_of; msimpl;
     rewrite !lookup_insert_eq; msimpl;
     rewrite ?list_lookup_alter_eq, Hheap;
     repeat split;
     try apply lookup_delete_eq;
     try (intros h1 t0 [= <-] Ht; by apply lookup_stopped_timer);
     try (intros h1 t0 [=])).
Qed.

Lemma JobComplete_running_witness :
  ∃ s' idx jobpb',
    JobComplete "g" (Some "ok") None Sample.running = (Ok tt, s')
    ∧ index_of s' "g" = Some idx
    ∧ db s' !! "g" = Some jobpb'
    ∧ jobIndex.State idx = pb.Job_SUCCESS
    ∧ pb.Job.State jobpb' = pb.Job_SUCCESS
    ∧ jobIndex.StateTimer idx = None
    ∧ assigned (inmem s') !! ("P", "X", "W") = None.
Proof.
  destruct (JobComplete_running Sample.running "g" 0
              (jobIndex.mk "g" (Some 1) (Some (pb.mkApplication "X" "P"))
                 (Some (pb.mkWorkspace "W")) 1000 true "" pb.Job_RUNNING (Some 1) (Some 0))
              (pb.Job.set_AckTime (Some 1000%Z)
                 (pb.Job.set_AssignTime (Some 1000%Z)
                    (pb.Job.set_QueueTime (Some 1000%Z)
                       (pb.Job.set_State pb.Job_RUNNING (Sample.job "g" Sample.any)))))
              (Some "ok") None)
    as (s' & idx & jobpb' & H1 & H2 & H3 & H4 & H5 & _ & _ & H6 & _ & H7 & _).
  - by_evaluation.
  - vm_compute; reflexivity.
  - vm_compute; reflexivity.
  - exists s', idx, jobpb'. repeat split; assumption.
Defined.

(** C2 (code as written): a forced [JobCancel] of a WAITING or RUNNING job
    moves it to ERROR with the stored error [Canceled] and stops its timer,
    but the scope tracker is left as it was: a scope that was assigned to
    the job stays assigned to it, and every other job of that scope is still
    reported blocked. *)
Theorem JobCancel_force_keeps_scope
    (s : State) (id : string) (p : nat) (job : jobIndex.t) (jobpb : pb.Job.t) :
  indexed s id p job →
  jobIndex.State job = pb.Job_WAITING ∨ jobIndex.State job = pb.Job_RUNNING →
  db s !! id = Some jobpb →
  ∃ s' idx,
    JobCancel id true s = (Ok tt, s')
    ∧ index_of s' id = Some idx
    ∧ jobIndex.State idx = pb.Job_ERROR
    ∧ jobIndex.StateTimer idx = None
    ∧ (pb.Job.State <$> db s' !! id) = Some pb.Job_ERROR
    ∧ (pb.Job.Error <$> db s' !! id)
      = Some (Some (status.mkStatus codes.Canceled "canceled"))
    ∧ assigned (inmem s') = assigned (inmem s)
    ∧ (∀ other, assigned (inmem s) !! scope_of other = Some id →
         jobIndex.Id other ≠ id → jobIsBlocked other s' = (Ok true, s')).
Proof.
  intros Hidx Hst Hdb. open_indexed Hidx. open_state s.
  destruct job as [jid op app ws qt tany trid st tm buf]; msimpl; subst.
  destruct Hst as [-> | ->], tm as [h0|]; mrun;
    (eexists _, _; split; [reflexivity|]; unfold index_of; msimpl;
     rewrite !lookup_insert_eq; msimpl;
     rewrite ?list_lookup_alter_eq, Hheap;
     repeat split;
     intros other Hasg Hne; mrun; unfold blocked_in; rewrite Hasg;
     by rewrite bool_decide_true by congruence).
Qed.

Lemma JobCancel_force_keeps_scope_witness :
  ∃ s' idx,
    JobCancel "g" true Sample.running_and_queued = (Ok tt, s')
    ∧ index_of s' "g" = Some idx
    ∧ jobIndex.State idx = pb.Job_ERROR
    ∧ assigned (inmem s') = assigned (inmem Sample.running_and_queued).
Proof.
  destruct (JobCancel_force_keeps_scope Sample.running_and_queued "g" 0
              (jobIndex.mk "g" (Some 1) (Some (pb.mkApplication "X" "P"))
                 (Some (pb.mkWorkspace "W")) 1000 true "" pb.Job_RUNNING (Some 1) (Some 0))
              (pb.Job.set_AckTime (Some 1000%Z)
                 (pb.Job.set_AssignTime (Some 1000%Z)
                    (pb.Job.set_QueueTime (Some 1000%Z)
                       (pb.Job.set_State pb.Job_RUNNING (Sample.job "g" Sample.any))))))
    as (s' & idx & H1 & H2 & H3 & _ & _ & _ & H4 & _).
  - by_evaluation.
  - right; vm_compute; reflexivity.
  - vm_compute; reflexivity.
  - exists s', idx. repeat split; assumption.
Defined.

(** C2 (failing input): "g" is RUNNING and "d" is QUEUED in the same scope.
    After [JobCancel "g" true] the job "g" is in ERROR, yet the scope is
    still assigned to "g", "d" is reported blocked, and an assignment for a
    runner finds no candidate. *)
Lemma force_cancel_leaves_scope_blocked :
  Sample.cancelled_and_queued
  = run [ev_JobCreate (Sample.job "g" Sample.any);
         ev_JobAssignForRunner Sample.runner; ev_JobAck "g" true;
         ev_JobCreate (Sample.job "d" Sample.any); ev_JobCancel "g" true]
        (empty_State 1000)
  ∧ (jobIndex.State <$> index_of Sample.cancelled_and_queued "g") = Some pb.Job_ERROR
  ∧ (jobIndex.State <$> index_of Sample.cancelled_and_queued "d") = Some pb.Job_QUEUED
  ∧ assigned (inmem Sample.cancelled_and_queued) !! ("P", "X", "W") = Some "g"
  ∧ (Job.Blocked <$> (JobById "d" Sample.cancelled_and_queued).1) = Some true
  ∧ (JobAssignForRunner Sample.runner Sample.cancelled_and_queued).1 = Ok None.
Proof. by_evaluation. Qed.

(** For contrast with the forced cancel: completing "g" instead frees the
    scope and "d" is assigned next. *)
Lemma complete_frees_scope :
  let s := exec (JobComplete "g" None None) Sample.running_and_queued in
  assigned (inmem s) !! ("P", "X", "W") = None
  ∧ (Job.Blocked <$> (JobById "d" s).1) = Some false
  ∧ (jobIndex.State <$> index_of (exec (JobAssignForRunner Sample.runner) s) "d")
    = Some pb.Job_WAITING.
Proof. by_evaluation. Qed.

(** C3 (counterexample): "g" is WAITING; [JobExpire] succeeds and the job
    is still WAITING afterwards, in the index and on disk, with no stored
    error; only [CancelTime] was set. *)
Lemma JobExpire_waiting_stays_waiting :
  (jobIndex.State <$> index_of Sample.waiting "g") = Some pb.Job_WAITING
  ∧ (JobExpire "g" Sample.waiting).1 = Ok tt
  ∧ (jobIndex.State <$> index_of (exec (JobExpire "g") Sample.waiting) "g")
    = Some pb.Job_WAITING
  ∧ (pb.Job.State <$> db (exec (JobExpire "g") Sample.waiting) !! "g")
    = Some pb.Job_WAITING
  ∧ (pb.Job.Error <$> db (exec (JobExpire "g") Sample.waiting) !! "g") = Some None
  ∧ (pb.Job.CancelTime <$> db (exec (JobExpire "g") Sample.waiting) !! "g")
    = Some (Some 1000%Z).
Proof. by_evaluation. Qed.

(** C3 (amended): [JobExpire] on a QUEUED job moves it to ERROR with the
    stored error [Canceled]; on a WAITING job it only records [CancelTime]:
    the job stays WAITING, its index record and stored error are untouched;
    on a RUNNING, SUCCESS or ERROR job it changes nothing. *)
Theorem JobExpire_by_state
    (s : State) (id : string) (p : nat) (job : jobIndex.t) (jobpb : pb.Job.t) :
  indexed s id p job →
  db s !! id = Some jobpb →
  (jobIndex.State job = pb.Job_QUEUED →
     ∃ s', JobExpire id s = (Ok tt, s')
       ∧ index_of s' id = Some (jobIndex.set_State pb.Job_ERROR job)
       ∧ db s' !! id
         = Some (pb.Job.set_Error (Some (status.mkStatus codes.Canceled "canceled"))
                   (pb.Job.set_CancelTime (Some (now s))
                      (pb.Job.set_State pb.Job_ERROR jobpb))))
  ∧ (jobIndex.State job = pb.Job_WAITING →
     ∃ s', JobExpire id s = (Ok tt, s')
       ∧ index_of s' id = Some job
       ∧ db s' !! id
         = Some (pb.Job.set_CancelTime (Some (now s))
                   (pb.Job.set_State pb.Job_WAITING jobpb))
       ∧ timers s' = timers s
       ∧ assigned (inmem s') = assigned (inmem s))
  ∧ (jobIndex.State job = pb.Job_RUNNING ∨ jobIndex.State job = pb.Job_SUCCESS
       ∨ jobIndex.State job = pb.Job_ERROR →
     JobExpire id s = (Ok tt, s)).
Proof.
  intros Hidx Hdb. open_indexed Hidx. open_state s.
  destruct job as [jid op app ws qt tany trid st tm buf]; msimpl; subst.
  repeat split.
  - intros ->. mrun. eexists; split; [reflexivity|]. unfold index_of; msimpl.
    rewrite !lookup_insert_eq; msimpl. by rewrite list_lookup_alter_eq, Hheap.
  - intros ->. mrun. eexists; split; [reflexivity|]. unfold index_of; msimpl.
    rewrite !lookup_insert_eq; msimpl. by rewrite Hheap.
  - intros [-> | [-> | ->]]; mrun; reflexivity.
Qed.

Lemma JobExpire_by_state_witness :
  ∃ s', JobExpire "g" Sample.queued = (Ok tt, s')
    ∧ (jobIndex.State <$> index_of s' "g") = Some pb.Job_ERROR
    ∧ (pb.Job.Error <$> db s' !! "g")
      = Some (Some (status.mkStatus codes.Canceled "canceled")).
Proof.
  destruct (JobExpire_by_state Sample.queued "g" 0
              (jobIndex.mk "g" (Some 1) (Some (pb.mkApplication "X" "P"))
                 (Some (pb.mkWorkspace "W")) 1000 true "" pb.Job_QUEUED None None)
              (pb.Job.set_QueueTime (Some 1000%Z)
                 (pb.Job.set_State pb.Job_QUEUED (Sample.job "g" Sample.any))))
    as (H & _ & _).
  - by_evaluation.
  - vm_compute; reflexivity.
  - destruct (H eq_refl) as (s' & H1 & H2 & H3).
    exists s'. split; [exact H1|]. split; [by rewrite H2 | by rewrite H3].
Defined.

Ltac munfold_create :=
  cbv beta delta [JobCreate jobCreate jobIndexSet Txn_write db_Update dbPut
    time_Now time_AfterFunc
    set_inmem set_db set_heap set_timers set_buffers set_jobs set_assigned
    set_queue_time set_target_id table_Insert
    bind gets modify fail ret].

(** C5 (counterexample): creating a job without a target runner fails with
    the plain error "job target runner must be set"; it carries no status,
    so its code is [Unknown], not [InvalidArgument]. *)
Lemma JobCreate_unset_target_plain_error :
  JobCreate (Sample.job "a" None) (empty_State 0)
  = (Err (status.PlainError "job target runner must be set"), empty_State 0)
  ∧ status.CodeOf (Some (status.PlainError "job target runner must be set"))
    ≠ codes.InvalidArgument.
Proof. split; [reflexivity | discriminate]. Qed.

(** C5 (amended): when the target runner is set to a known variant,
    [JobCreate] persists the job with [State = QUEUED] and
    [QueueTime = now], whatever these fields held, and indexes it as QUEUED
    with that queue time; when [TargetRunner] is unset or its variant is
    unknown, [JobCreate] fails with a plain error (status code [Unknown])
    and the scheduler is unchanged: nothing is persisted or indexed. *)
Theorem JobCreate_cases (s : State) (jobpb : pb.Job.t) :
  (∀ tr tgt, pb.Job.TargetRunner jobpb = Some tr → pb.Target tr = Some tgt →
     ∃ s' idx,
       JobCreate jobpb s = (Ok tt, s')
       ∧ db s' !! pb.Job.Id jobpb
         = Some (pb.Job.set_QueueTime (Some (now s))
                   (pb.Job.set_State pb.Job_QUEUED jobpb))
       ∧ index_of s' (pb.Job.Id jobpb) = Some idx
       ∧ jobIndex.Id idx = pb.Job.Id jobpb
       ∧ jobIndex.State idx = pb.Job_QUEUED
       ∧ jobIndex.QueueTime idx = now s
       ∧ jobIndex.StateTimer idx = None)
  ∧ (pb.Job.TargetRunner jobpb = None →
     JobCreate jobpb s
     = (Err (status.PlainError "job target runner must be set"), s))
  ∧ (∀ tr, pb.Job.TargetRunner jobpb = Some tr → pb.Target tr = None →
     JobCreate jobpb s
     = (Err (status.PlainError "unknown runner target value: <nil>"), s))
  ∧ (∀ msg, status.CodeOf (Some (status.PlainError msg)) = codes.Unknown).
Proof.
  open_state s.
  destruct jobpb as [jid app ws tr op st res err qt at_ ackt ct cat et]; msimpl.
  repeat split.
  - intros tr' tgt -> Htgt. destruct tr' as [tg]; msimpl; subst.
    destruct tgt as [|rid], et as [e|];
      munfold_create; msimpl;
      (eexists _, _; split; [reflexivity|]; unfold index_of; msimpl;
       rewrite !lookup_insert_eq; msimpl;
       split; [reflexivity|]; split; [by apply list_lookup_middle|];
       repeat split).
  - intros ->. reflexivity.
  - intros tr' -> Htgt. destruct tr' as [tg]; msimpl; subst. reflexivity.
Qed.

Lemma JobCreate_cases_witness :
  ∃ s' idx,
    JobCreate (Sample.job "g" Sample.any) (empty_State 1000) = (Ok tt, s')
    ∧ (pb.Job.State <$> db s' !! "g") = Some pb.Job_QUEUED
    ∧ (pb.Job.QueueTime <$> db s' !! "g") = Some (Some 1000%Z)
    ∧ index_of s' "g" = Some idx
    ∧ jobIndex.State idx = pb.Job_QUEUED.
Proof.
  destruct (JobCreate_cases (empty_State 1000) (Sample.job "g" Sample.any)) as (H & _).
  destruct (H (pb.mkRunnerRef (Some pb.Ref_Runner_Any)) pb.Ref_Runner_Any)
    as (s' & idx & H1 & H2 & H3 & _ & H4 & _).
  - vm_compute; reflexivity.
  - vm_compute; reflexivity.
  - change (pb.Job.Id (Sample.job "g" Sample.any)) with "g" in H2, H3.
    exists s', idx. split; [exact H1|].
    split; [by rewrite H2|]. split; [by rewrite H2|]. split; [exact H3 | exact H4].
Defined.

Section List.

Lemma Get_id_prefix_length s : length (Get_id_prefix s) = length (records s).
Proof.
  unfold Get_id_prefix. apply Permutation_length, merge_sort_Permutation.
Qed.

Lemma jobById_value s id :
  (jobById id s).1 = default pb.Job.zero (db s !! id).
Proof.
  unfold jobById, dbGet. by destruct (db s !! id).
Qed.

End List.

(** C10 (counterexample): "g" is indexed and its persisted record is
    missing, so the read fails; [JobList] succeeds and the entry of "g" is a
    non-nil, zero-valued job. *)
Lemma JobList_unreadable_entry_not_nil :
  (jobById "g" Sample.unreadable).2
  = Some (status.Errorf codes.NotFound "record not found for ID: g")
  ∧ JobList Sample.unreadable = Ok [Some pb.Job.zero]
  ∧ JobList Sample.unreadable ≠ Ok [None].
Proof. split; [|split]; [vm_compute; reflexivity .. | discriminate]. Qed.

(** C10 (amended): [JobList] always succeeds and returns one entry per
    index record, in index order; no entry is nil; the entry of a record is
    its persisted job, or a zero-valued job when reading it failed. *)
Theorem JobList_entries (s : State) :
  ∃ l,
    JobList s = Ok l
    ∧ length l = length (records s)
    ∧ (∀ i r, Get_id_prefix s !! i = Some r →
         l !! i = Some (Some (default pb.Job.zero (db s !! jobIndex.Id r.2))))
    ∧ (∀ i, l !! i ≠ Some None).
Proof.
  eexists. split; [reflexivity|]. split; [|split].
  - rewrite length_map. apply Get_id_prefix_length.
  - intros i r Hr. rewrite list_lookup_fmap, Hr. cbn.
    rewrite <- jobById_value. by destruct (jobById _ s).
  - intros i. rewrite list_lookup_fmap.
    destruct (Get_id_prefix s !! i) as [r|]; cbn; [|discriminate].
    by destruct (jobById _ s).
Qed.

Section Candidates.

Lemma jobCandidateById_loop_spec r iter s :
  ∃ res,
    jobCandidateById_loop r iter s = (Ok res, s)
    ∧ ∀ p, res = Some p →
        ∃ job, (p, job) ∈ iter
          ∧ jobIndex.State job = pb.Job_QUEUED
          ∧ jobIndex.TargetRunnerId job = pb.Runner.Id r
          ∧ blocked_in (assigned (inmem s)) job = false.
Proof.
  induction iter as [|[q job] iter IH]; cbn [jobCandidateById_loop].
  - exists None. split; [reflexivity | discriminate].
  - destruct IH as (res & Hres & Hspec).
    assert (Htail : ∃ res', jobCandidateById_loop r iter s = (Ok res', s)
              ∧ ∀ p, res' = Some p →
                  ∃ job', (p, job') ∈ (q, job) :: iter
                    ∧ jobIndex.State job' = pb.Job_QUEUED
                    ∧ jobIndex.TargetRunnerId job' = pb.Runner.Id r
                    ∧ blocked_in (assigned (inmem s)) job' = false).
    { exists res. split; [exact Hres|]. intros p Hp.
      destruct (Hspec p Hp) as (job' & Hin & H). exists job'.
      split; [apply elem_of_cons; by right | exact H]. }
    destruct (decide _) as [Hskip|Hkeep]; [exact Htail|].
    unfold bind, jobIsBlocked, gets.
    destruct (blocked_in (assigned (inmem s)) job) eqn:Hblk; [exact Htail|].
    exists (Some q). split; [reflexivity|]. intros p [= <-]. exists job.
    split; [apply elem_of_cons; by left|].
    destruct (decide (jobIndex.State job = pb.Job_QUEUED)) as [Hs|Hs];
      [|exfalso; apply Hkeep; by left].
    destruct (decide (jobIndex.TargetRunnerId job = pb.Runner.Id r)) as [Ht|Ht];
      [|exfalso; apply Hkeep; by right].
    by repeat split.
Qed.

Lemma jobCandidateAny_loop_spec iter s :
  ∃ res,
    jobCandidateAny_loop iter s = (Ok res, s)
    ∧ ∀ p, res = Some p →
        ∃ job, (p, job) ∈ iter
          ∧ jobIndex.State job = pb.Job_QUEUED
          ∧ jobIndex.TargetAny job = true
          ∧ blocked_in (assigned (inmem s)) job = false.
Proof.
  induction iter as [|[q job] iter IH]; cbn [jobCandidateAny_loop].
  - exists None. split; [reflexivity | discriminate].
  - destruct IH as (res & Hres & Hspec).
    assert (Htail : ∃ res', jobCandidateAny_loop iter s = (Ok res', s)
              ∧ ∀ p, res' = Some p →
                  ∃ job', (p, job') ∈ (q, job) :: iter
                    ∧ jobIndex.State job' = pb.Job_QUEUED
                    ∧ jobIndex.TargetAny job' = true
                    ∧ blocked_in (assigned (inmem s)) job' = false).
    { exists res. split; [exact Hres|]. intros p Hp.
      destruct (Hspec p Hp) as (job' & Hin & H). exists job'.
      split; [apply elem_of_cons; by right | exact H]. }
    destruct (decide _) as [Hskip|Hkeep]; [exact Htail|].
    unfold bind, jobIsBlocked, gets.
    destruct (blocked_in (assigned (inmem s)) job) eqn:Hblk; [exact Htail|].
    exists (Some q). split; [reflexivity|]. intros p [= <-]. exists job.
    split; [apply elem_of_cons; by left|].
    destruct (decide (jobIndex.State job = pb.Job_QUEUED)) as [Hs|Hs];
      [|exfalso; apply Hkeep; by left].
    destruct (jobIndex.TargetAny job) eqn:Ht; [|exfalso; apply Hkeep; by right].
    by repeat split.
Qed.

Lemma elem_of_records s p job :
  (p, job) ∈ records s →
  ∃ id, jobs (inmem s) !! id = Some p ∧ heap s !! p = Some job.
Proof.
  unfold records. intros H. apply list_elem_of_omap in H as ([id q] & Hin & Hq).
  apply elem_of_map_to_list in Hin.
  destruct (heap s !! q) as [idx|] eqn:Hh; [|discriminate].
  cbn in Hq. injection Hq as -> ->. by exists id.
Qed.






End Candidates.

Section Assign.




End Assign.


Lemma index_keyed_b_sound s : index_keyed_b s = true → index_keyed s.
Proof.
  unfold index_keyed_b, index_keyed. intros H id p job Hj Hh.
  rewrite forallb_forall in H.
  apply elem_of_map_to_list, list_elem_of_In in Hj.
  specialize (H (id, p) Hj). cbn in H. rewrite Hh in H.
  by apply bool_decide_eq_true in H.
Qed.


(** C9 (scenario 4 and the tie): with "e" for any runner queued before "f"
    for runner R, the runner gets "e"; queued at the same time, it gets the
    targeted "f". *)
Lemma assign_order_examples :
  (JobAssignForRunner Sample.runner Sample.any_then_targeted).1
  = Ok (Some (Job.mk (pb.Job.set_AssignTime (Some 1001%Z)
                        (pb.Job.set_QueueTime (Some 1000%Z)
                           (pb.Job.set_State pb.Job_WAITING (Sample.job "e" Sample.any))))
                     None false))
  ∧ (JobAssignForRunner Sample.runner Sample.any_and_targeted_tie).1
    = Ok (Some (Job.mk (pb.Job.set_AssignTime (Some 1000%Z)
                          (pb.Job.set_QueueTime (Some 1000%Z)
                             (pb.Job.set_State pb.Job_WAITING
                                (Sample.job "f" (Sample.to "R")))))
                       None false)).
Proof. split; vm_compute; reflexivity. Qed.

(** ** A RUNNING job always has a state timer *)

Lemma list_alter_twice {A} (f g : A → A) i (l : list A) :
  alter f i (alter g i l) = alter (f ∘ g) i l.
Proof.
  revert i. induction l as [|x l IH]; intros [|i]; cbn; try reflexivity.
  by rewrite IH.
Qed.

(** Case analysis on whatever blocks the symbolic execution. *)
Ltac open_record x :=
  lazymatch type of x with
  | jobIndex.t => destruct x
  | _ => idtac
  end.

Ltac mcase :=
  match goal with
  | |- context [match ?m !! ?k with _ => _ end] =>
      let E := fresh "E" in
      let x := fresh "x" in
      destruct (m !! k) as [x|] eqn:E; [open_record x|]
  | |- context [decide (?x ≠ _)] => is_var x; destruct x
  | |- context [decide (?x = _)] => is_var x; destruct x
  | |- context [blocked_in ?a ?b] => destruct (blocked_in a b)
  | |- context [match ?x with _ => _ end] => is_var x; destruct x
  | |- context [if ?b then _ else _] => is_var b; destruct b
  | |- context [match ?f ?x with _ => _ end] => is_var x; destruct x
  end.

Ltac heap_step :=
  first
    [ assumption
    | rewrite list_alter_twice
    | apply Forall_alter;
      [ assumption
      | let x := fresh "x" in
        intros x _ _; destruct x; unfold running_has_timer; cbn; congruence ]
    | apply Forall_app_2;
      [ assumption
      | apply Forall_singleton; unfold running_has_timer; cbn; congruence ] ].

Ltac heap_paths := mrun; repeat (mcase; mrun); repeat heap_step.

Section HeapInvariant.

Variable s : State.
Hypothesis Hheap : Forall running_has_timer (heap s).

Lemma JobAck_heap id ack : Forall running_has_timer (heap (JobAck id ack s).2).
Proof. open_state s. heap_paths. Qed.

Lemma JobComplete_heap id res cerr :
  Forall running_has_timer (heap (JobComplete id res cerr s).2).
Proof. open_state s. heap_paths. Qed.

Lemma JobCancel_heap id force : Forall running_has_timer (heap (JobCancel id force s).2).
Proof. open_state s. heap_paths. Qed.

Lemma JobHeartbeat_heap id : Forall running_has_timer (heap (JobHeartbeat id s).2).
Proof. open_state s. heap_paths. Qed.

Lemma JobExpire_heap id : Forall running_has_timer (heap (JobExpire id s).2).
Proof. open_state s. heap_paths. Qed.

Lemma JobCreate_heap jobpb : Forall running_has_timer (heap (JobCreate jobpb s).2).
Proof.
  open_state s. destruct jobpb as [jid app ws tr op st res err qt at_ ackt ct cat et].
  munfold_create; msimpl. repeat (mcase; munfold_create; msimpl); repeat heap_step.
Qed.

End HeapInvariant.

Lemma assign_loop_heap candidates s :
  Forall running_has_timer (heap s) →
  Forall running_has_timer (heap (assign_loop candidates s).2).
Proof.
  induction candidates as [|c candidates IH]; intros H; [exact H|].
  cbn [assign_loop]. open_state s.
  mrun; repeat (mcase; mrun); try (by apply IH); repeat heap_step.
Qed.

Lemma build_candidates_state r s :
  ∃ l, build_candidates (candidateQuery r) r s = (Ok l, s).
Proof.
  unfold candidateQuery, jobCandidateById, jobCandidateAny.
  destruct (jobCandidateById_loop_spec r
              (LowerBound_targetId pb.Job_QUEUED (pb.Runner.Id r) 0 s) s)
    as (ra & Hra & _).
  destruct (jobCandidateAny_loop_spec (LowerBound_queueTime pb.Job_QUEUED 0 s) s)
    as (rb & Hrb & _).
  destruct (pb.Runner.ByIdOnly r); cbn [build_candidates];
    cbv beta iota delta [bind gets ret]; rewrite Hra; try rewrite Hrb;
    by eexists.
Qed.

Lemma JobAssignForRunner_heap r s :
  Forall running_has_timer (heap s) →
  Forall running_has_timer (heap (JobAssignForRunner r s).2).
Proof.
  intros H. unfold JobAssignForRunner.
  destruct (build_candidates_state r s) as (l & Hl).
  unfold bind at 1. rewrite Hl.
  destruct l as [|c l]; [exact H|].
  cbv beta iota delta [bind gets Txn_write].
  pose proof (assign_loop_heap (sort_Slice (candidate_less s) (c :: l)) s H) as H'.
  destruct (assign_loop _ s) as [[j|e] s']; exact H'.
Qed.

Lemma timer_fire_heap h s :
  Forall running_has_timer (heap s) →
  Forall running_has_timer (heap (timer_fire h s)).
Proof.
  intros H. unfold timer_fire.
  destruct (timers s !! h) as [t|]; [|exact H].
  destruct (active t); [|exact H].
  destruct (fn t) as [id ack|id force|id]; cbn [run_callback].
  - by apply JobAck_heap.
  - by apply JobCancel_heap.
  - by apply JobExpire_heap.
Qed.

Lemma apply_event_heap s e :
  Forall running_has_timer (heap s) →
  Forall running_has_timer (heap (apply_event s e)).
Proof.
  intros H. destruct e; cbn [apply_event].
  - by apply JobCreate_heap.
  - by apply JobAssignForRunner_heap.
  - by apply JobAck_heap.
  - by apply JobComplete_heap.
  - by apply JobCancel_heap.
  - by apply JobHeartbeat_heap.
  - by apply JobExpire_heap.
  - exact H.
  - by apply timer_fire_heap.
Qed.

Lemma run_heap trace s :
  Forall running_has_timer (heap s) →
  Forall running_has_timer (heap (run trace s)).
Proof.
  revert s. induction trace as [|e trace IH]; intros s H; [exact H|].
  cbn [run fold_left]. apply IH. by apply apply_event_heap.
Qed.

(** In a scheduler produced by a run from an empty one, every RUNNING
    index record has a state timer. *)
Lemma reachable_running_has_timer s id p job :
  reachable s → indexed s id p job → running_has_timer job.
Proof.
  intros (t & trace & ->) (_ & Hh & _).
  eapply Forall_lookup_1; [|exact Hh].
  apply run_heap. constructor.
Qed.

(** C8: [JobHeartbeat] returns [NotFound] for an id that is not indexed;
    for an indexed job that is not RUNNING it succeeds and changes nothing;
    for a RUNNING job it re-arms the job's state timer to fire one heartbeat
    timeout from now and changes nothing else: index, heap objects and
    persisted records are as before. In a scheduler produced by a run from
    an empty one a RUNNING job always has that timer. *)
Theorem JobHeartbeat_cases (s : State) (id : string) :
  (index_of s id = None →
     JobHeartbeat id s = (Err (job_not_found id), s)
     ∧ status.CodeOf (Some (job_not_found id)) = codes.NotFound)
  ∧ (∀ p job, indexed s id p job → jobIndex.State job ≠ pb.Job_RUNNING →
       JobHeartbeat id s = (Ok tt, s))
  ∧ (∀ p job h, indexed s id p job → jobIndex.State job = pb.Job_RUNNING →
       jobIndex.StateTimer job = Some h →
       ∃ s', JobHeartbeat id s = (Ok tt, s')
         ∧ (∀ t, timers s !! h = Some t →
              timers s' !! h = Some (mkTimer (fn t) (now s + jobHeartbeatTimeout) true))
         ∧ (∀ h', h' ≠ h → timers s' !! h' = timers s !! h')
         ∧ inmem s' = inmem s ∧ heap s' = heap s ∧ db s' = db s
         ∧ buffers s' = buffers s ∧ now s' = now s
         ∧ index_of s' id = Some job)
  ∧ (∀ p job, reachable s → indexed s id p job →
       jobIndex.State job = pb.Job_RUNNING →
       ∃ h, jobIndex.StateTimer job = Some h).
Proof.
  repeat split.
  - by apply JobHeartbeat_missing.
  - intros p job Hidx Hst. by apply (JobHeartbeat_not_running s id p job).
  - intros p job h Hidx Hst Htm. open_indexed Hidx. open_state s.
    destruct job as [jid op app ws qt tany trid st tm buf]; msimpl; subst.
    mrun. eexists; split; [reflexivity|]. unfold index_of; msimpl.
    repeat split.
    + intros t Ht. by rewrite list_lookup_alter_eq, Ht.
    + intros h' Hne. by rewrite list_lookup_alter_ne.
    + by rewrite Hjobs.
  - intros p job Hreach Hidx Hst.
    pose proof (reachable_running_has_timer s id p job Hreach Hidx Hst) as Htm.
    destruct (jobIndex.StateTimer job) as [h|]; [by exists h | done].
Qed.

(** A RUNNING job without a state timer, which no run produces: the
    heartbeat does nothing. *)
Lemma JobHeartbeat_running_no_timer s id p job :
  indexed s id p job → jobIndex.State job = pb.Job_RUNNING →
  jobIndex.StateTimer job = None →
  JobHeartbeat id s = (Ok tt, s).
Proof.
  intros Hidx Hst Htm. open_indexed Hidx. open_state s.
  destruct job as [jid op app ws qt tany trid st tm buf]; msimpl; subst.
  mrun. reflexivity.
Qed.

Lemma JobHeartbeat_cases_witness :
  reachable (tick 5 Sample.running)
  ∧ ∃ s', JobHeartbeat "g" (tick 5 Sample.running) = (Ok tt, s')
      ∧ timers s' !! 1
        = Some (mkTimer (cb_JobCancel "g" true) (1005 + jobHeartbeatTimeout) true)
      ∧ heap s' = heap (tick 5 Sample.running)
      ∧ db s' = db (tick 5 Sample.running).
Proof.
  split.
  { exists 1000%Z,
      [ev_JobCreate (Sample.job "g" Sample.any); ev_JobAssignForRunner Sample.runner;
       ev_JobAck "g" true; ev_tick 5].
    vm_compute; reflexivity. }
  destruct (JobHeartbeat_cases (tick 5 Sample.running) "g") as (_ & _ & H & _).
  destruct (H 0 (jobIndex.mk "g" (Some 1) (Some (pb.mkApplication "X" "P"))
                   (Some (pb.mkWorkspace "W")) 1000 true "" pb.Job_RUNNING
                   (Some 1) (Some 0)) 1)
    as (s' & H1 & H2 & _ & _ & H3 & H4 & _).
  - by_evaluation.
  - vm_compute; reflexivity.
  - vm_compute; reflexivity.
  - exists s'. split; [exact H1|]. split; [|split; [exact H3 | exact H4]].
    rewrite (H2 (mkTimer (cb_JobCancel "g" true) (1000 + jobHeartbeatTimeout) true))
      by (vm_compute; reflexivity).
    vm_compute; reflexivity.
Defined.

(** ** Indexed jobs are on the heap and persisted *)

Section StoreSteps.

(** How a verb may move the three stores without breaking [store_ok]. *)
Lemma store_ok_step s s' :
  store_ok s →
  (∀ p j, heap s !! p = Some j →
     ∃ j', heap s' !! p = Some j' ∧ jobIndex.Id j' = jobIndex.Id j) →
  (∀ id, is_Some (db s !! id) → is_Some (db s' !! id)) →
  (∀ id p, jobs (inmem s') !! id = Some p →
     jobs (inmem s) !! id = Some p
     ∨ ((∃ j, heap s' !! p = Some j ∧ jobIndex.Id j = id) ∧ is_Some (db s' !! id))) →
  store_ok s'.
Proof.
  intros Hok Hheap Hdb Hjobs id p Hl.
  destruct (Hjobs id p Hl) as [Hold|Hnew]; [|exact Hnew].
  destruct (Hok id p Hold) as ((j & Hj & Hid) & Hrec).
  destruct (Hheap p j Hj) as (j' & Hj' & Hid').
  split; [exists j'; split; [exact Hj' | congruence] | by apply Hdb].
Qed.

Lemma heap_ids_alter (f : jobIndex.t → jobIndex.t) i (l : list jobIndex.t) :
  (∀ x, jobIndex.Id (f x) = jobIndex.Id x) →
  ∀ p j, l !! p = Some j →
    ∃ j', alter f i l !! p = Some j' ∧ jobIndex.Id j' = jobIndex.Id j.
Proof.
  intros Hf p j Hj. rewrite list_lookup_alter. case_decide.
  - subst. rewrite Hj. cbn. eauto.
  - eauto.
Qed.

Lemma heap_ids_app (l : list jobIndex.t) (x : jobIndex.t) :
  ∀ p j, l !! p = Some j →
    ∃ j', (l ++ [x])%list !! p = Some j' ∧ jobIndex.Id j' = jobIndex.Id j.
Proof. intros p j Hj. exists j. split; [by apply lookup_app_l_Some | done]. Qed.

Lemma heap_ids_refl (l : list jobIndex.t) :
  ∀ p j, l !! p = Some j → ∃ j', l !! p = Some j' ∧ jobIndex.Id j' = jobIndex.Id j.
Proof. eauto. Qed.

Lemma db_mono_insert (m : gmap string pb.Job.t) k v :
  ∀ id, is_Some (m !! id) → is_Some (<[k := v]> m !! id).
Proof. intros id H. rewrite lookup_insert. by case_decide. Qed.

End StoreSteps.

Ltac store_heap :=
  rewrite ?list_alter_twice;
  first
    [ apply heap_ids_refl
    | apply heap_ids_alter; let x := fresh "x" in intros x; by destruct x
    | apply heap_ids_app ].

Ltac store_db := first [ by intros ? ? | apply db_mono_insert ].

Ltac store_jobs :=
  let id' := fresh "id'" in
  let p' := fresh "p'" in
  let Hl := fresh "Hl" in
  intros id' p' Hl;
  first
    [ by left
    | rewrite lookup_insert in Hl; case_decide; [|by left];
      subst; injection Hl as <-; right;
      rewrite ?list_alter_twice; split;
      [ eexists; split;
        [ first
            [ by apply list_lookup_middle
            | match goal with
              | E : ?l !! ?p = Some _ |- context [alter _ ?p ?l !! ?p] =>
                  rewrite list_lookup_alter_eq, E; reflexivity
              | E : ?l !! ?p = Some _ |- ?l !! ?p = _ => exact E
              end ]
        | reflexivity ]
      | first
          [ rewrite lookup_insert_eq; by eexists
          | match goal with
            | E : ?m !! ?k = Some _ |- is_Some (?m !! ?k) => rewrite E; by eexists
            end ] ] ].

Ltac store_finish H :=
  first
    [ exact H
    | apply (store_ok_step _ _ H); msimpl; [store_heap | store_db | store_jobs] ].

Ltac store_paths H := mrun; repeat (mcase; mrun); store_finish H.

Section StoreInvariant.

Variable s : State.
Hypothesis Hok : store_ok s.

Lemma JobAck_store id ack : store_ok (JobAck id ack s).2.
Proof. open_state s. store_paths Hok. Qed.

Lemma JobComplete_store id res cerr : store_ok (JobComplete id res cerr s).2.
Proof. open_state s. store_paths Hok. Qed.

Lemma JobCancel_store id force : store_ok (JobCancel id force s).2.
Proof. open_state s. store_paths Hok. Qed.

Lemma JobHeartbeat_store id : store_ok (JobHeartbeat id s).2.
Proof. open_state s. store_paths Hok. Qed.

Lemma JobExpire_store id : store_ok (JobExpire id s).2.
Proof. open_state s. store_paths Hok. Qed.

Lemma JobCreate_store jobpb : store_ok (JobCreate jobpb s).2.
Proof.
  open_state s. destruct jobpb as [jid app ws tr op st res err qt at_ ackt ct cat et].
  munfold_create; msimpl.
  repeat (first [mcase | rewrite decide_False by congruence];
          munfold_create; msimpl);
    store_finish Hok.
Qed.

End StoreInvariant.

Lemma assign_loop_store candidates s :
  store_ok s → store_ok (Txn_write (assign_loop candidates) s).2.
Proof.
  induction candidates as [|c candidates IH]; intros H.
  - open_state s. exact H.
  - specialize (IH H). revert IH. unfold Txn_write. cbn [assign_loop].
    open_state s. intros IH.
    mrun; repeat (mcase; mrun); try exact IH; store_finish H.
Qed.

Lemma JobAssignForRunner_store r s :
  store_ok s → store_ok (JobAssignForRunner r s).2.
Proof.
  intros H. unfold JobAssignForRunner.
  destruct (build_candidates_state r s) as (l & Hl).
  unfold bind at 1. rewrite Hl.
  destruct l as [|c l]; [exact H|].
  cbv beta iota delta [bind gets].
  by apply assign_loop_store.
Qed.

Lemma timer_fire_store h s : store_ok s → store_ok (timer_fire h s).
Proof.
  intros H. unfold timer_fire.
  destruct (timers s !! h) as [t|]; [|exact H].
  destruct (active t); [|exact H].
  destruct (fn t) as [id ack|id force|id]; cbn [run_callback].
  - by apply JobAck_store.
  - by apply JobCancel_store.
  - by apply JobExpire_store.
Qed.

Lemma apply_event_store s e : store_ok s → store_ok (apply_event s e).
Proof.
  intros H. destruct e; cbn [apply_event].
  - by apply JobCreate_store.
  - by apply JobAssignForRunner_store.
  - by apply JobAck_store.
  - by apply JobComplete_store.
  - by apply JobCancel_store.
  - by apply JobHeartbeat_store.
  - by apply JobExpire_store.
  - exact H.
  - by apply timer_fire_store.
Qed.

Lemma run_store trace s : store_ok s → store_ok (run trace s).
Proof.
  revert s. induction trace as [|e trace IH]; intros s H; [exact H|].
  cbn [run fold_left]. apply IH. by apply apply_event_store.
Qed.

Lemma reachable_store_ok s : reachable s → store_ok s.
Proof.
  intros (t & trace & ->). apply run_store. intros id p H. discriminate H.
Qed.

(** In a scheduler produced by a run from an empty one, an indexed job is
    stored under its own id and its persisted record exists. *)
Lemma reachable_indexed s id job :
  reachable s → index_of s id = Some job →
  ∃ p jobpb, indexed s id p job ∧ db s !! id = Some jobpb.
Proof.
  intros Hreach Hidx. unfold index_of in Hidx.
  destruct (jobs (inmem s) !! id) as [p|] eqn:Hj; [|discriminate]. cbn in Hidx.
  destruct (reachable_store_ok s Hreach id p Hj) as ((j & Hh & Hid) & (jobpb & Hdb)).
  exists p, jobpb. split; [|exact Hdb].
  rewrite Hidx in Hh. injection Hh as <-. by repeat split.
Qed.

Lemma reachable_index_keyed s : reachable s → index_keyed s.
Proof.
  intros Hreach id p job Hj Hh.
  destruct (reachable_store_ok s Hreach id p Hj) as ((j & Hh' & Hid) & _).
  congruence.
Qed.

(** ** Scenarios of §8 *)

(** Scenario 1: create, assign, accept, complete. The job ends in SUCCESS
    with its completion time set, no timer is left armed and the scope is
    free. *)
Lemma scenario_happy_path :
  let s := run [ev_JobCreate (Sample.job "a" Sample.any);
                ev_JobAssignForRunner Sample.runner;
                ev_JobAck "a" true; ev_tick 7;
                ev_JobComplete "a" (Some "ok") None] (empty_State 1000) in
  ((λ j, pb.Job.State (Job.Job j)) <$> (JobById "a" s).1) = Some pb.Job_SUCCESS
  ∧ ((λ j, pb.Job.CompleteTime (Job.Job j)) <$> (JobById "a" s).1) = Some (Some 1007%Z)
  ∧ (jobIndex.StateTimer <$> index_of s "a") = Some None
  ∧ Forall (λ t, active t = false) (timers s)
  ∧ assigned (inmem s) = ∅.
Proof.
  cbv zeta.
  repeat (apply conj; [vm_compute; reflexivity|]).
  split; [|vm_compute; reflexivity].
  vm_compute. repeat constructor.
Qed.

(** Scenario 5, as the code has it: the waiting timer of an assigned job
    fires and the job is QUEUED again, but with the heartbeat timer that the
    nack armed. *)
Lemma scenario_waiting_timeout :
  let s := run [ev_JobCreate (Sample.job "g" Sample.any);
                ev_JobAssignForRunner Sample.runner;
                ev_tick jobWaitingTimeout; ev_timer 0] (empty_State 1000) in
  (jobIndex.State <$> index_of s "g") = Some pb.Job_QUEUED
  ∧ (jobIndex.StateTimer <$> index_of s "g") = Some (Some 1)
  ∧ (fn <$> timers s !! 1) = Some (cb_JobCancel "g" true)
  ∧ (active <$> timers s !! 1) = Some true.
Proof. cbv zeta. by_evaluation. Qed.

(** * Further properties of the verbs *)

(** X1: [JobAck id true] on a WAITING job moves it to RUNNING in the index
    and on disk, stamps [AckTime] with the current time, gives it a fresh
    output buffer, stops the waiting timer and arms a heartbeat timer whose
    callback is the forced cancel; the scope tracker is left as it was. *)
Theorem JobAck_accept
    (s : State) (id : string) (p : nat) (job : jobIndex.t) (jobpb : pb.Job.t) :
  indexed s id p job →
  jobIndex.State job = pb.Job_WAITING →
  db s !! id = Some jobpb →
  ∃ r s',
    JobAck id true s = (Ok r, s')
    ∧ Job.Job r = pb.Job.set_AckTime (Some (now s)) (pb.Job.set_State pb.Job_RUNNING jobpb)
    ∧ Job.OutputBuffer r = Some (buffers s)
    ∧ db s' !! id = Some (Job.Job r)
    ∧ index_of s' id
      = Some (jobIndex.set_StateTimer (Some (length (timers s)))
                (jobIndex.set_OutputBuffer (Some (buffers s))
                   (jobIndex.set_State pb.Job_RUNNING job)))
    ∧ buffers s' = S (buffers s)
    ∧ (∀ h0 t0, jobIndex.StateTimer job = Some h0 → timers s !! h0 = Some t0 →
         timers s' !! h0 = Some (stopped t0))
    ∧ timers s' !! length (timers s)
      = Some (mkTimer (cb_JobCancel id true) (now s + jobHeartbeatTimeout) true)
    ∧ assigned (inmem s') = assigned (inmem s).
Proof.
  intros Hidx Hst Hdb. open_indexed Hidx. open_state s.
  destruct job as [jid op app ws qt tany trid st tm buf]; msimpl; subst.
  destruct tm as [h0|]; mrun;
    (eexists _, _; split; [reflexivity|]; unfold index_of; msimpl;
     rewrite ?length_alter, !lookup_insert_eq; msimpl;
     rewrite ?list_lookup_alter_eq, Hheap;
     repeat split;
     try (intros h1 t0 [= <-] Ht; apply lookup_old_timer; by apply lookup_stopped_timer);
     try (intros h1 t0 [=]);
     try (apply lookup_new_timer; by rewrite ?length_alter)).
Qed.

Lemma JobAck_accept_witness :
  ∃ r s',
    JobAck "g" true Sample.waiting = (Ok r, s')
    ∧ (jobIndex.State <$> index_of s' "g") = Some pb.Job_RUNNING
    ∧ (pb.Job.State <$> db s' !! "g") = Some pb.Job_RUNNING
    ∧ assigned (inmem s') = assigned (inmem Sample.waiting).
Proof.
  destruct (JobAck_accept Sample.waiting "g" 0
              (jobIndex.mk "g" (Some 1) (Some (pb.mkApplication "X" "P"))
                 (Some (pb.mkWorkspace "W")) 1000 true "" pb.Job_WAITING (Some 0) None)
              (pb.Job.set_AssignTime (Some 1000%Z)
                 (pb.Job.set_QueueTime (Some 1000%Z)
                    (pb.Job.set_State pb.Job_WAITING (Sample.job "g" Sample.any)))))
    as (r & s' & H1 & H2 & _ & H3 & H4 & _ & _ & _ & H5).
  - by_evaluation.
  - vm_compute; reflexivity.
  - vm_compute; reflexivity.
  - exists r, s'. split; [exact H1|]. split; [by rewrite H4|].
    split; [by rewrite H3, H2 | exact H5].
Defined.

(** X2: [JobCancel] by the state of the job. A QUEUED job goes to ERROR
    with the stored error [Canceled], forced or not. A WAITING or RUNNING
    job that is cancelled without force keeps its state, its index record
    and its timer; only [CancelTime] is written. A job in SUCCESS or ERROR
    is left entirely alone: not even [CancelTime] is recorded. *)
Theorem JobCancel_by_state
    (s : State) (id : string) (p : nat) (job : jobIndex.t) (jobpb : pb.Job.t) :
  indexed s id p job →
  db s !! id = Some jobpb →
  (∀ force, jobIndex.State job = pb.Job_QUEUED →
     ∃ s', JobCancel id force s = (Ok tt, s')
       ∧ index_of s' id = Some (jobIndex.set_State pb.Job_ERROR job)
       ∧ db s' !! id
         = Some (pb.Job.set_Error (Some (status.mkStatus codes.Canceled "canceled"))
                   (pb.Job.set_CancelTime (Some (now s))
                      (pb.Job.set_State pb.Job_ERROR jobpb)))
       ∧ timers s' = timers s ∧ assigned (inmem s') = assigned (inmem s))
  ∧ (jobIndex.State job = pb.Job_WAITING ∨ jobIndex.State job = pb.Job_RUNNING →
     ∃ s', JobCancel id false s = (Ok tt, s')
       ∧ index_of s' id = Some job
       ∧ db s' !! id
         = Some (pb.Job.set_CancelTime (Some (now s))
                   (pb.Job.set_State (jobIndex.State job) jobpb))
       ∧ heap s' = heap s ∧ timers s' = timers s
       ∧ assigned (inmem s') = assigned (inmem s))
  ∧ (∀ force, jobIndex.State job = pb.Job_SUCCESS ∨ jobIndex.State job = pb.Job_ERROR →
     JobCancel id force s = (Ok tt, s)).
Proof.
  intros Hidx Hdb. open_indexed Hidx. open_state s.
  destruct job as [jid op app ws qt tany trid st tm buf]; msimpl; subst.
  repeat split.
  - intros force ->. mrun. eexists; split; [reflexivity|]. unfold index_of; msimpl.
    rewrite !lookup_insert_eq; msimpl. by rewrite list_lookup_alter_eq, Hheap.
  - intros [-> | ->]; mrun; (eexists; split; [reflexivity|]); unfold index_of; msimpl;
      rewrite !lookup_insert_eq; msimpl; by rewrite Hheap.
  - intros force [-> | ->]; mrun; reflexivity.
Qed.

Lemma JobCancel_by_state_witness :
  ∃ s', JobCancel "g" false Sample.running = (Ok tt, s')
    ∧ (jobIndex.State <$> index_of s' "g") = Some pb.Job_RUNNING
    ∧ (pb.Job.CancelTime <$> db s' !! "g") = Some (Some 1000%Z)
    ∧ timers s' = timers Sample.running.
Proof.
  destruct (JobCancel_by_state Sample.running "g" 0
              (jobIndex.mk "g" (Some 1) (Some (pb.mkApplication "X" "P"))
                 (Some (pb.mkWorkspace "W")) 1000 true "" pb.Job_RUNNING (Some 1) (Some 0))
              (pb.Job.set_AckTime (Some 1000%Z)
                 (pb.Job.set_AssignTime (Some 1000%Z)
                    (pb.Job.set_QueueTime (Some 1000%Z)
                       (pb.Job.set_State pb.Job_RUNNING (Sample.job "g" Sample.any))))))
    as (_ & H & _).
  - by_evaluation.
  - vm_compute; reflexivity.
  - destruct H as (s' & H1 & H2 & H3 & _ & H4 & _); [by right|].
    exists s'. split; [exact H1|]. split; [by rewrite H2|].
    split; [rewrite H3; vm_compute; reflexivity | exact H4].
Defined.

(** ** Coherence of index, heap, bucket and scope tracker *)

Section CoherentSteps.

Lemma blocked_in_false tracker job :
  blocked_in tracker job = false →
  tracker !! scope_of job = None ∨ tracker !! scope_of job = Some (jobIndex.Id job).
Proof.
  unfold blocked_in. destruct (tracker !! scope_of job) as [id'|]; [|by left].
  intros H. right. apply bool_decide_eq_false in H.
  f_equal. by apply dec_stable.
Qed.

(** A verb that rewrites one indexed job keeps the stores coherent when the
    new object and record agree, the scope of the job is as before, the
    tracker changed at most at that scope, and the scope was free or the
    job's own when it did. *)
Lemma coherent_step jobs asg heap db asg' heap' db' id p job job' rec' :
  coherent_on jobs asg heap db →
  jobs !! id = Some p →
  heap !! p = Some job →
  heap' !! p = Some job' →
  (∀ q, q ≠ p → heap' !! q = heap !! q) →
  db' !! id = Some rec' →
  (∀ k, k ≠ id → db' !! k = db !! k) →
  agrees id job' rec' →
  scope_of job' = scope_of job →
  (∀ S, S ≠ scope_of job → asg' !! S = asg !! S) →
  (in_flight (jobIndex.State job') → asg' !! scope_of job = Some id) →
  (asg' !! scope_of job = asg !! scope_of job
   ∨ asg !! scope_of job = None ∨ asg !! scope_of job = Some id) →
  coherent_on jobs asg' heap' db'.
Proof.
  intros Hco Hj Hh Hh' Hheap Hd' Hdb Hag Hsc Hasg Hown Hfree id2 p2 Hj2.
  destruct (decide (id2 = id)) as [->|Hne].
  - rewrite Hj in Hj2. injection Hj2 as <-.
    exists job', rec'. split; [exact Hh'|]. split; [exact Hd'|]. split; [exact Hag|].
    rewrite Hsc. exact Hown.
  - destruct (Hco id2 p2 Hj2) as (job2 & rec2 & Hh2 & Hd2 & Hag2 & Htr2).
    destruct (Hco id p Hj) as (job0 & rec0 & Hh0 & _ & Hag0 & _).
    assert (p2 ≠ p) as Hp.
    { intros ->. rewrite Hh0 in Hh2. injection Hh2 as <-.
      destruct Hag0 as (Hi0 & _), Hag2 as (Hi2 & _). congruence. }
    exists job2, rec2. rewrite (Hheap p2 Hp), (Hdb id2 Hne).
    split; [exact Hh2|]. split; [exact Hd2|]. split; [exact Hag2|].
    intros Hact. specialize (Htr2 Hact).
    destruct (decide (scope_of job2 = scope_of job)) as [Heq|Hsne].
    + rewrite Heq in Htr2 |- *.
      destruct Hfree as [Hsame | [Hnone | Hmine]]; [by rewrite Hsame | congruence..].
    + by rewrite (Hasg _ Hsne).
Qed.

(** [JobCreate] of a job that is not in flight keeps the stores coherent. *)
Lemma coherent_create jobs asg heap db rec job :
  coherent_on jobs asg heap db →
  agrees (jobIndex.Id job) job rec →
  ¬ in_flight (jobIndex.State job) →
  coherent_on (<[jobIndex.Id job := length heap]> jobs) asg
    (heap ++ [job])%list (<[jobIndex.Id job := rec]> db).
Proof.
  intros Hco Hag Hidle id2 p2 Hj2.
  rewrite lookup_insert in Hj2. case_decide as Hid.
  - subst id2. injection Hj2 as <-. exists job, rec.
    split; [by apply list_lookup_middle|]. split; [apply lookup_insert_eq|].
    split; [exact Hag | done].
  - destruct (Hco id2 p2 Hj2) as (job2 & rec2 & Hh2 & Hd2 & Hag2 & Htr2).
    exists job2, rec2. split; [by apply lookup_app_l_Some|].
    split; [by rewrite lookup_insert_ne|]. by split.
Qed.

End CoherentSteps.

(** Case analysis for the coherence proofs: as [mcase], keeping the
    equation of the blocked test. *)
Ltac mcase_eq :=
  match goal with
  | |- context [match ?m !! ?k with _ => _ end] =>
      let E := fresh "E" in
      let x := fresh "x" in
      destruct (m !! k) as [x|] eqn:E; [open_record x|]
  | |- context [decide (?x ≠ _)] => is_var x; destruct x
  | |- context [decide (?x = _)] => is_var x; destruct x
  | |- context [blocked_in ?a ?b] =>
      let Eb := fresh "Eb" in destruct (blocked_in a b) eqn:Eb
  | |- context [match ?x with _ => _ end] => is_var x; destruct x
  | |- context [if ?b then _ else _] => is_var b; destruct b
  | |- context [match ?f ?x with _ => _ end] => is_var x; destruct x
  end.

(** Bring in what coherence says about the job the verb looked up. *)
Ltac use_coherent H :=
  match goal with
  | E : ?jobs !! ?k = Some ?x, E0 : ?heap !! ?x = Some _ |- _ =>
      let job := fresh "job" in
      let rc := fresh "rc" in
      let Hh := fresh "Hh" in
      let Hd := fresh "Hd" in
      let Hag := fresh "Hag" in
      let Htr := fresh "Htr" in
      destruct (H k x E) as (job & rc & Hh & Hd & Hag & Htr);
      rewrite E0 in Hh; injection Hh as <-;
      unfold agrees, target_agrees in Hag; msimpl;
      destruct Hag as (? & ? & ? & ? & ? & ? & ? & ? & ?); subst;
      rewrite ?(insert_id _ _ _ E);
      try match goal with
          | E1 : ?db !! ?k = Some _ |- _ =>
              rewrite Hd in E1; injection E1 as <-
          end
  end.

Ltac coherent_side :=
  msimpl;
  first
    [ eassumption
    | reflexivity
    | apply lookup_insert_eq
    | by (intros; rewrite ?list_alter_twice; rewrite list_lookup_alter_ne)
    | by (intros; rewrite lookup_insert_ne)
    | by (intros; rewrite lookup_delete_ne)
    | by (rewrite ?list_alter_twice, list_lookup_alter_eq;
          match goal with E0 : _ !! _ = Some _ |- _ => rewrite E0 end)
    | by (unfold agrees, target_agrees; msimpl; repeat apply conj;
          first [assumption | congruence | intros [?|?]; congruence
                | intros _; congruence ])
    | by (intros [?|?]; congruence)
    | by (intros _; apply lookup_insert_eq)
    | by (intros _; match goal with Htr : _ → _ !! _ = Some _ |- _ =>
                      apply Htr; first [by left | by right] end)
    | by left
    | by (right; right; match goal with Htr : _ → _ !! _ = Some _ |- _ =>
                      apply Htr; first [by left | by right] end)
    | by (right; match goal with Eb : blocked_in _ _ = false |- _ =>
                   exact (blocked_in_false _ _ Eb) end) ].

Ltac coherent_finish H :=
  first
    [ exact H
    | congruence
    | match goal with
      | E : ?jobs !! ?k = Some ?x, E0 : ?heap !! ?x = Some ?j |- _ =>
          eapply (coherent_step _ _ _ _ _ _ _ k x j _ _ H E E0); coherent_side
      end ].

Ltac coherent_paths H :=
  mrun; repeat (mcase_eq; mrun); try use_coherent H; coherent_finish H.

Section CoherentVerbs.

Variable s : State.
Hypothesis Hco : coherent s.

Lemma JobAck_coherent id ack : coherent (JobAck id ack s).2.
Proof. revert Hco. unfold coherent. open_state s. intros Hco. coherent_paths Hco. Qed.

Lemma JobComplete_coherent id res cerr : coherent (JobComplete id res cerr s).2.
Proof. revert Hco. unfold coherent. open_state s. intros Hco. coherent_paths Hco. Qed.

Lemma JobCancel_coherent id force : coherent (JobCancel id force s).2.
Proof. revert Hco. unfold coherent. open_state s. intros Hco. coherent_paths Hco. Qed.

Lemma JobHeartbeat_coherent id : coherent (JobHeartbeat id s).2.
Proof. revert Hco. unfold coherent. open_state s. intros Hco. coherent_paths Hco. Qed.

Lemma JobExpire_coherent id : coherent (JobExpire id s).2.
Proof. revert Hco. unfold coherent. open_state s. intros Hco. coherent_paths Hco. Qed.

End CoherentVerbs.

Lemma JobCreate_coherent jobpb s : coherent s → coherent (JobCreate jobpb s).2.
Proof.
  unfold coherent. open_state s. intros Hco.
  destruct jobpb as [jid app ws tr op st res err qt at_ ackt ct cat et].
  munfold_create; msimpl.
  repeat (first [mcase | rewrite decide_False by congruence];
          munfold_create; msimpl);
    first
      [ exact Hco
      | match goal with
        | |- coherent_on _ _ (_ ++ [?r])%list (<[_ := ?v]> _) =>
            apply (coherent_create _ _ _ _ v r Hco);
            [ unfold agrees, target_agrees; msimpl; repeat apply conj;
              first [reflexivity | intros [?|?]; congruence]
            | intros [?|?]; discriminate ]
        end ].
Qed.

Lemma assign_loop_coherent candidates s :
  coherent s → coherent (Txn_write (assign_loop candidates) s).2.
Proof.
  induction candidates as [|c candidates IH]; intros H.
  - open_state s. exact H.
  - specialize (IH H). revert IH H. unfold Txn_write, coherent. cbn [assign_loop].
    open_state s. intros IH H.
    mrun; repeat (mcase_eq; mrun); try exact IH;
      try use_coherent H; coherent_finish H.
Qed.

Lemma JobAssignForRunner_coherent r s :
  coherent s → coherent (JobAssignForRunner r s).2.
Proof.
  intros H. unfold JobAssignForRunner.
  destruct (build_candidates_state r s) as (l & Hl).
  unfold bind at 1. rewrite Hl.
  destruct l as [|c l]; [exact H|].
  cbv beta iota delta [bind gets].
  by apply assign_loop_coherent.
Qed.

Lemma timer_fire_coherent h s : coherent s → coherent (timer_fire h s).
Proof.
  intros H. unfold timer_fire.
  destruct (timers s !! h) as [t|]; [|exact H].
  destruct (active t); [|exact H].
  destruct (fn t) as [id ack|id force|id]; cbn [run_callback].
  - by apply JobAck_coherent.
  - by apply JobCancel_coherent.
  - by apply JobExpire_coherent.
Qed.

Lemma apply_event_coherent s e : coherent s → coherent (apply_event s e).
Proof.
  intros H. destruct e; cbn [apply_event].
  - by apply JobCreate_coherent.
  - by apply JobAssignForRunner_coherent.
  - by apply JobAck_coherent.
  - by apply JobComplete_coherent.
  - by apply JobCancel_coherent.
  - by apply JobHeartbeat_coherent.
  - by apply JobExpire_coherent.
  - exact H.
  - by apply timer_fire_coherent.
Qed.

Lemma run_coherent trace s : coherent s → coherent (run trace s).
Proof.
  revert s. induction trace as [|e trace IH]; intros s H; [exact H|].
  cbn [run fold_left]. apply IH. by apply apply_event_coherent.
Qed.

Lemma reachable_coherent s : reachable s → coherent s.
Proof.
  intros (t & trace & ->). apply run_coherent. intros id p H. discriminate H.
Qed.

Lemma index_of_Some s id job :
  index_of s id = Some job →
  ∃ p, jobs (inmem s) !! id = Some p ∧ heap s !! p = Some job.
Proof.
  unfold index_of. destruct (jobs (inmem s) !! id) as [p|]; [|discriminate].
  cbn. intros H. by exists p.
Qed.

Lemma reachable_job s id job :
  reachable s → index_of s id = Some job →
  ∃ rec, db s !! id = Some rec ∧ agrees id job rec
    ∧ (in_flight (jobIndex.State job) → assigned (inmem s) !! scope_of job = Some id).
Proof.
  intros Hreach Hidx. apply index_of_Some in Hidx as (p & Hj & Hh).
  destruct (reachable_coherent s Hreach id p Hj) as (job' & rec & Hh' & Hd & Hag & Htr).
  rewrite Hh in Hh'. injection Hh' as <-. by exists rec.
Qed.

(** X3: in every scheduler that a run of verbs, clock ticks and timer
    firings produces from an empty one, an indexed job has a persisted
    record under the same id, and the two agree on the id, the state, the
    queue time, the application, the workspace and the operation. *)
Theorem reachable_index_matches_disk (s : State) (id : string) (job : jobIndex.t) :
  reachable s →
  index_of s id = Some job →
  ∃ rec,
    db s !! id = Some rec
    ∧ jobIndex.Id job = id ∧ pb.Job.Id rec = id
    ∧ pb.Job.State rec = jobIndex.State job
    ∧ pb.Job.QueueTime rec = Some (jobIndex.QueueTime job)
    ∧ pb.Job.Application rec = jobIndex.Application job
    ∧ pb.Job.Workspace rec = jobIndex.Workspace job
    ∧ pb.Job.Operation rec = jobIndex.OpType job.
Proof.
  intros Hreach Hidx.
  destruct (reachable_job s id job Hreach Hidx) as (rec & Hd & Hag & _).
  destruct Hag as (H1 & H2 & H3 & H4 & H5 & H6 & H7 & _).
  exists rec. by repeat split.
Qed.

Lemma reachable_index_matches_disk_witness :
  ∃ rec,
    db Sample.cancelled_and_queued !! "g" = Some rec
    ∧ pb.Job.State rec = pb.Job_ERROR.
Proof.
  destruct (reachable_index_matches_disk Sample.cancelled_and_queued "g"
              (jobIndex.mk "g" (Some 1) (Some (pb.mkApplication "X" "P"))
                 (Some (pb.mkWorkspace "W")) 1000 true "" pb.Job_ERROR None (Some 0)))
    as (rec & H1 & _ & _ & H2 & _).
  - exists 1000%Z,
      [ev_JobCreate (Sample.job "g" Sample.any); ev_JobAssignForRunner Sample.runner;
       ev_JobAck "g" true; ev_JobCreate (Sample.job "d" Sample.any);
       ev_JobCancel "g" true].
    vm_compute; reflexivity.
  - vm_compute; reflexivity.
  - exists rec. split; [exact H1 | exact H2].
Defined.

(** X4: mutual exclusion. In every scheduler produced by a run from an
    empty one, while a job is WAITING or RUNNING no other indexed job of the
    same scope is WAITING or RUNNING. *)
Theorem reachable_one_job_in_flight_per_scope
    (s : State) (id1 id2 : string) (job1 job2 : jobIndex.t) :
  reachable s →
  index_of s id1 = Some job1 →
  index_of s id2 = Some job2 →
  id1 ≠ id2 →
  scope_of job1 = scope_of job2 →
  in_flight (jobIndex.State job1) →
  ¬ in_flight (jobIndex.State job2).
Proof.
  intros Hreach H1 H2 Hne Hsc Ha1 Ha2.
  destruct (reachable_job s id1 job1 Hreach H1) as (_ & _ & _ & Ht1).
  destruct (reachable_job s id2 job2 Hreach H2) as (_ & _ & _ & Ht2).
  specialize (Ht1 Ha1). specialize (Ht2 Ha2). rewrite Hsc in Ht1. congruence.
Qed.

Lemma reachable_one_job_in_flight_per_scope_witness :
  ¬ in_flight pb.Job_QUEUED.
Proof.
  apply (reachable_one_job_in_flight_per_scope Sample.running_and_queued "g" "d"
           (jobIndex.mk "g" (Some 1) (Some (pb.mkApplication "X" "P"))
              (Some (pb.mkWorkspace "W")) 1000 true "" pb.Job_RUNNING (Some 1) (Some 0))
           (jobIndex.mk "d" (Some 1) (Some (pb.mkApplication "X" "P"))
              (Some (pb.mkWorkspace "W")) 1000 true "" pb.Job_QUEUED None None)).
  - exists 1000%Z,
      [ev_JobCreate (Sample.job "g" Sample.any); ev_JobAssignForRunner Sample.runner;
       ev_JobAck "g" true; ev_JobCreate (Sample.job "d" Sample.any)].
    vm_compute; reflexivity.
  - vm_compute; reflexivity.
  - vm_compute; reflexivity.
  - discriminate.
  - reflexivity.
  - by right.
Defined.

(** X5: in every scheduler produced by a run from an empty one, a job that
    is WAITING or RUNNING has its scope assigned to itself in the tracker
    (so it is not blocked by its own assignment) and has a state timer. *)
Theorem reachable_in_flight_holds_scope_and_timer
    (s : State) (id : string) (job : jobIndex.t) :
  reachable s →
  index_of s id = Some job →
  in_flight (jobIndex.State job) →
  assigned (inmem s) !! scope_of job = Some id
  ∧ (∃ h, jobIndex.StateTimer job = Some h)
  ∧ blocked_in (assigned (inmem s)) job = false.
Proof.
  intros Hreach Hidx Hact.
  destruct (reachable_job s id job Hreach Hidx) as (rec & _ & Hag & Htr).
  destruct Hag as (Hid & _ & _ & _ & _ & _ & _ & _ & Htm).
  specialize (Htr Hact). specialize (Htm Hact).
  split; [exact Htr|]. split.
  - destruct (jobIndex.StateTimer job) as [h|]; [by exists h | done].
  - unfold blocked_in. rewrite Htr. apply bool_decide_eq_false. intros Hne.
    by apply Hne.
Qed.

Lemma reachable_in_flight_holds_scope_and_timer_witness :
  assigned (inmem Sample.waiting) !! ("P", "X", "W") = Some "g".
Proof.
  destruct (reachable_in_flight_holds_scope_and_timer Sample.waiting "g"
              (jobIndex.mk "g" (Some 1) (Some (pb.mkApplication "X" "P"))
                 (Some (pb.mkWorkspace "W")) 1000 true "" pb.Job_WAITING (Some 0) None))
    as (H & _).
  - exists 1000%Z,
      [ev_JobCreate (Sample.job "g" Sample.any); ev_JobAssignForRunner Sample.runner].
    vm_compute; reflexivity.
  - vm_compute; reflexivity.
  - by left.
  - exact H.
Defined.

(** ** What [JobAssignForRunner] hands out *)


(** ** The secondary indexes stay in order while ids are fresh *)

Section IndexSteps.

Lemma existing_self jobs heap id p job :
  jobs !! id = Some p → heap !! p = Some job → existing jobs heap id = Some job.
Proof. intros Hj Hh. unfold existing. rewrite Hj. exact Hh. Qed.

Lemma existing_None jobs heap id :
  jobs !! id = None → existing jobs heap id = None.
Proof. intros Hj. unfold existing. by rewrite Hj. Qed.

Lemma index_Insert_self {K} `{Countable K} (key : jobIndex.t → option K) obj p idx :
  index_Insert key (Some obj) obj p idx
  = match key obj with Some k => <[k := p]> idx | None => idx end.
Proof.
  unfold index_Insert. cbn. destruct (key obj) as [k|]; [|reflexivity].
  by rewrite decide_True.
Qed.

Lemma index_Insert_None {K} `{Countable K} (key : jobIndex.t → option K) obj p idx :
  index_Insert key None obj p idx
  = match key obj with Some k => <[k := p]> idx | None => idx end.
Proof. reflexivity. Qed.

(** A verb that rewrites one indexed object in place and inserts it again
    keeps the indexes in order, as long as the id, the queue time and the
    target runner of the object stay. *)
Lemma index_ok_step jobs asg heap db qt tg heap' id p job job' :
  coherent_on jobs asg heap db →
  index_ok_on jobs heap qt tg →
  jobs !! id = Some p →
  heap !! p = Some job →
  heap' !! p = Some job' →
  (∀ q, q ≠ p → heap' !! q = heap !! q) →
  jobIndex.Id job' = jobIndex.Id job →
  jobIndex.QueueTime job' = jobIndex.QueueTime job →
  jobIndex.TargetRunnerId job' = jobIndex.TargetRunnerId job →
  index_ok_on jobs heap'
    (index_Insert queueTime_key (existing jobs heap' id) job' p qt)
    (index_Insert targetId_key (existing jobs heap' id) job' p tg).
Proof.
  intros Hco (Hq & Ht & Hc) Hj Hh Hh' Hheap Hid Hqt Htg.
  destruct (Hco id p Hj) as (job0 & rec0 & Hh0 & _ & (Hi0 & _) & _).
  rewrite Hh in Hh0. injection Hh0 as <-.
  rewrite (existing_self _ _ _ _ _ Hj Hh'), !index_Insert_self.
  assert (∀ q jobq, heap !! q = Some jobq → jobs !! jobIndex.Id jobq = Some q →
            ∃ jobq', heap' !! q = Some jobq'
              ∧ jobIndex.Id jobq' = jobIndex.Id jobq
              ∧ jobIndex.QueueTime jobq' = jobIndex.QueueTime jobq
              ∧ jobIndex.TargetRunnerId jobq' = jobIndex.TargetRunnerId jobq) as Hsame.
  { intros q jobq Hhq Hjq. destruct (decide (q = p)) as [->|Hne].
    - rewrite Hh in Hhq. injection Hhq as <-. by exists job'.
    - exists jobq. by rewrite (Hheap q Hne). }
  split; [|split].
  - intros k q. unfold queueTime_key. rewrite lookup_insert. case_decide as Hk.
    + intros [= <-]. subst k. exists job'. cbn. rewrite Hid, Hi0.
      by repeat split.
    + intros Hkq. destruct (Hq k q Hkq) as (jobq & Hhq & Hjq & Hk1 & Hk2).
      destruct (Hsame q jobq Hhq Hjq) as (jobq' & Hhq' & Hi & Hqq & _).
      exists jobq'. rewrite Hi, Hqq. by repeat split.
  - intros k q. unfold targetId_key. case_decide as He.
    + intros Hkq. destruct (Ht k q Hkq) as (jobq & Hhq & Hjq & Hk1 & Hk2).
      destruct (Hsame q jobq Hhq Hjq) as (jobq' & Hhq' & Hi & Hqq & Htt).
      exists jobq'. rewrite Hi, Hqq, Htt. by repeat split.
    + rewrite lookup_insert. case_decide as Hk.
      * intros [= <-]. subst k. exists job'. cbn. rewrite Hid, Hi0.
        by repeat split.
      * intros Hkq. destruct (Ht k q Hkq) as (jobq & Hhq & Hjq & Hk1 & Hk2).
        destruct (Hsame q jobq Hhq Hjq) as (jobq' & Hhq' & Hi & Hqq & Htt).
        exists jobq'. rewrite Hi, Hqq, Htt. by repeat split.
  - intros id2 p2 job2 Hj2 Hh2. destruct (decide (p2 = p)) as [->|Hne].
    + rewrite Hh' in Hh2. injection Hh2 as <-. split.
      * intros k Hk. rewrite Hk. apply lookup_insert_eq.
      * intros k Hk. rewrite Hk. rewrite lookup_insert_eq. by eexists.
    + rewrite (Hheap p2 Hne) in Hh2.
      destruct (Hc id2 p2 job2 Hj2 Hh2) as (Hc1 & Hc2).
      destruct (Hco id2 p2 Hj2) as (job3 & rec3 & Hh3 & _ & (Hi3 & _) & _).
      rewrite Hh2 in Hh3. injection Hh3 as <-.
      assert (id2 ≠ id) as Hidne by (intros ->; congruence).
      split.
      * intros k Hk. unfold queueTime_key. rewrite lookup_insert_ne; [by apply Hc1|].
        unfold queueTime_key in Hk. injection Hk as <-. intros [= _ _ He].
        congruence.
      * intros k Hk. destruct (targetId_key job') as [k'|]; [|by apply Hc2].
        apply lookup_insert_is_Some'. right. by apply Hc2.
Qed.

(** [JobCreate] under an id that is not in use keeps the indexes in
    order. *)
Lemma index_ok_create jobs asg heap db qt tg job :
  coherent_on jobs asg heap db →
  index_ok_on jobs heap qt tg →
  jobs !! jobIndex.Id job = None →
  index_ok_on (<[jobIndex.Id job := length heap]> jobs) (heap ++ [job])%list
    (index_Insert queueTime_key (existing jobs heap (jobIndex.Id job)) job (length heap) qt)
    (index_Insert targetId_key (existing jobs heap (jobIndex.Id job)) job (length heap) tg).
Proof.
  intros Hco (Hq & Ht & Hc) Hnew.
  rewrite (existing_None _ _ _ Hnew), !index_Insert_None.
  assert (∀ q jobq, heap !! q = Some jobq → jobs !! jobIndex.Id jobq = Some q →
            (heap ++ [job])%list !! q = Some jobq
            ∧ <[jobIndex.Id job := length heap]> jobs !! jobIndex.Id jobq = Some q)
    as Hold.
  { intros q jobq Hhq Hjq. split; [by apply lookup_app_l_Some|].
    rewrite lookup_insert_ne; [done|]. intros He. congruence. }
  assert ((heap ++ [job])%list !! length heap = Some job) as Hlast
    by (by apply list_lookup_middle).
  split; [|split].
  - intros k q. unfold queueTime_key. rewrite lookup_insert. case_decide as Hk.
    + intros [= <-]. subst k. exists job. rewrite lookup_insert_eq. by repeat split.
    + intros Hkq. destruct (Hq k q Hkq) as (jobq & Hhq & Hjq & Hk1 & Hk2).
      destruct (Hold q jobq Hhq Hjq) as (H1 & H2). exists jobq. by repeat split.
  - intros k q. unfold targetId_key. case_decide as He.
    + intros Hkq. destruct (Ht k q Hkq) as (jobq & Hhq & Hjq & Hk1 & Hk2).
      destruct (Hold q jobq Hhq Hjq) as (H1 & H2). exists jobq. by repeat split.
    + rewrite lookup_insert. case_decide as Hk.
      * intros [= <-]. subst k. exists job. rewrite lookup_insert_eq. by repeat split.
      * intros Hkq. destruct (Ht k q Hkq) as (jobq & Hhq & Hjq & Hk1 & Hk2).
        destruct (Hold q jobq Hhq Hjq) as (H1 & H2). exists jobq. by repeat split.
  - intros id2 p2 job2. rewrite lookup_insert. case_decide as Hid.
    + intros [= <-]. rewrite Hlast. intros [= <-]. split.
      * intros k Hk. rewrite Hk. apply lookup_insert_eq.
      * intros k Hk. rewrite Hk. rewrite lookup_insert_eq. by eexists.
    + intros Hj2 Hh2.
      destruct (Hco id2 p2 Hj2) as (job3 & rec3 & Hh3 & _ & (Hi3 & _) & _).
      rewrite (lookup_app_l_Some _ _ _ _ Hh3) in Hh2. injection Hh2 as <-.
      destruct (Hc id2 p2 job3 Hj2 Hh3) as (Hc1 & Hc2). split.
      * intros k Hk. unfold queueTime_key. rewrite lookup_insert_ne; [by apply Hc1|].
        unfold queueTime_key in Hk. injection Hk as <-. intros [= _ _ He].
        congruence.
      * intros k Hk. destruct (targetId_key job) as [k'|]; [|by apply Hc2].
        apply lookup_insert_is_Some'. right. by apply Hc2.
Qed.

End IndexSteps.

Ltac index_side :=
  msimpl;
  first
    [ eassumption
    | reflexivity
    | by (intros; rewrite ?list_alter_twice; rewrite list_lookup_alter_ne)
    | by (rewrite ?list_alter_twice, list_lookup_alter_eq;
          match goal with E0 : _ !! _ = Some _ |- _ => rewrite E0 end) ].

Ltac index_finish Hco Hix :=
  first
    [ exact Hix
    | congruence
    | match goal with
      | E : ?jobs !! ?k = Some ?x, E0 : ?heap !! ?x = Some ?j |- _ =>
          eapply (index_ok_step _ _ _ _ _ _ _ k x j _ Hco Hix E E0); index_side
      end ].

Ltac index_paths Hco Hix :=
  mrun; repeat (mcase_eq; mrun); try use_coherent Hco; index_finish Hco Hix.

Section IndexVerbs.

Variable s : State.
Hypothesis Hco : coherent s.
Hypothesis Hix : index_ok s.

Lemma JobAck_index id ack : index_ok (JobAck id ack s).2.
Proof.
  revert Hco Hix. unfold coherent, index_ok. open_state s. intros Hco Hix.
  index_paths Hco Hix.
Qed.

Lemma JobComplete_index id res cerr : index_ok (JobComplete id res cerr s).2.
Proof.
  revert Hco Hix. unfold coherent, index_ok. open_state s. intros Hco Hix.
  index_paths Hco Hix.
Qed.

Lemma JobCancel_index id force : index_ok (JobCancel id force s).2.
Proof.
  revert Hco Hix. unfold coherent, index_ok. open_state s. intros Hco Hix.
  index_paths Hco Hix.
Qed.

Lemma JobHeartbeat_index id : index_ok (JobHeartbeat id s).2.
Proof.
  revert Hco Hix. unfold coherent, index_ok. open_state s. intros Hco Hix.
  index_paths Hco Hix.
Qed.

Lemma JobExpire_index id : index_ok (JobExpire id s).2.
Proof.
  revert Hco Hix. unfold coherent, index_ok. open_state s. intros Hco Hix.
  index_paths Hco Hix.
Qed.

End IndexVerbs.

Lemma JobCreate_index jobpb s :
  coherent s → index_ok s →
  jobs (inmem s) !! pb.Job.Id jobpb = None →
  index_ok (JobCreate jobpb s).2.
Proof.
  unfold coherent, index_ok. open_state s. intros Hco Hix.
  destruct jobpb as [jid app ws tr op st res err qt at_ ackt ct cat et]; msimpl.
  intros Hnew.
  munfold_create; msimpl.
  repeat (first [mcase | rewrite decide_False by congruence];
          munfold_create; msimpl);
    first
      [ exact Hix
      | match goal with
        | |- index_ok_on _ (_ ++ [?r])%list _ _ =>
            by apply (index_ok_create _ _ _ _ _ _ r Hco Hix)
        end ].
Qed.

Lemma assign_loop_index candidates s :
  coherent s → index_ok s → index_ok (Txn_write (assign_loop candidates) s).2.
Proof.
  induction candidates as [|c candidates IH]; intros Hco Hix.
  - open_state s. exact Hix.
  - specialize (IH Hco Hix). revert IH Hco Hix.
    unfold Txn_write, coherent, index_ok. cbn [assign_loop].
    open_state s. intros IH Hco Hix.
    mrun; repeat (mcase_eq; mrun); try exact IH;
      try use_coherent Hco; index_finish Hco Hix.
Qed.

Lemma JobAssignForRunner_index r s :
  coherent s → index_ok s → index_ok (JobAssignForRunner r s).2.
Proof.
  intros Hco Hix. unfold JobAssignForRunner.
  destruct (build_candidates_state r s) as (l & Hl).
  unfold bind at 1. rewrite Hl.
  destruct l as [|c l]; [exact Hix|].
  cbv beta iota delta [bind gets].
  by apply assign_loop_index.
Qed.

Lemma timer_fire_index h s : coherent s → index_ok s → index_ok (timer_fire h s).
Proof.
  intros Hco Hix. unfold timer_fire.
  destruct (timers s !! h) as [t|]; [|exact Hix].
  destruct (active t); [|exact Hix].
  destruct (fn t) as [id ack|id force|id]; cbn [run_callback].
  - by apply JobAck_index.
  - by apply JobCancel_index.
  - by apply JobExpire_index.
Qed.

Lemma apply_event_index s e :
  coherent s → index_ok s →
  match e with
  | ev_JobCreate jobpb => jobs (inmem s) !! pb.Job.Id jobpb = None
  | _ => True
  end →
  index_ok (apply_event s e).
Proof.
  intros Hco Hix Hfresh. destruct e; cbn [apply_event].
  - by apply JobCreate_index.
  - by apply JobAssignForRunner_index.
  - by apply JobAck_index.
  - by apply JobComplete_index.
  - by apply JobCancel_index.
  - by apply JobHeartbeat_index.
  - by apply JobExpire_index.
  - exact Hix.
  - by apply timer_fire_index.
Qed.

Lemma run_index trace s :
  coherent s → index_ok s → fresh_ids trace s → index_ok (run trace s).
Proof.
  revert s. induction trace as [|e trace IH]; intros s Hco Hix Hfresh; [exact Hix|].
  destruct Hfresh as (He & Hfresh).
  cbn [run fold_left]. apply IH; [by apply apply_event_coherent| |exact Hfresh].
  by apply apply_event_index.
Qed.

Lemma reachable_fresh_reachable s : reachable_fresh s → reachable s.
Proof. intros (t & trace & _ & ->). by exists t, trace. Qed.

Lemma reachable_fresh_index_ok s : reachable_fresh s → index_ok s.
Proof.
  intros (t & trace & Hfresh & ->). apply run_index; [| |exact Hfresh].
  - intros id p H. discriminate H.
  - split; [|split]; intros; discriminate.
Qed.
